(** * Restore-time permission handling of the drive connector

    A shallow embedding of

      - package [metadata]: [Permission], [Permission.Equals],
        [DiffPermissions];
      - package [onedrive]: [getParentMetadata], [getCollectionMetadata],
        [computeParentPermissions], [UpdatePermissions],
        [RestorePermissions];
      - package [exchange]: the collision handling of [restoreContact] and
        the [contactRestoreMock] of its test;

    followed by the properties proved about them. *)

From Stdlib Require Import ZArith Ascii.
From Equations.Prop Require Import Equations Logic.
From stdpp Require Import gmap strings list sorting pretty.


(** ** Go values *)

(** A Go slice is a header that points into a backing array; copying a
    struct that holds a slice copies the header and shares the array.  The
    only slices written through in this code are the [Roles] of a
    [Permission] ([slices.Sort] sorts in place), so a [[]string] is modelled
    as the address of its backing array and the arrays live in a [Heap].
    Two headers are either the same array or disjoint ones; a nil slice is
    an address the heap does not hold, read as the empty list. *)
Definition loc := nat.
Abbreviation Heap := (gmap loc (list string)).

Definition deref (h : Heap) (l : loc) : list string := h !!! l.

(** [slices.Sort(s)] for [s []string]: ascending byte-wise order, in place.
    The order is total and antisymmetric, so the sorted array does not
    depend on the sorting algorithm ([sortStrings_unique] below). *)
Definition sortStrings (l : list string) : list string :=
  merge_sort String.le l.

Definition slices_Sort (l : loc) (h : Heap) : Heap :=
  alter sortStrings l h.

(** [slices.Equal(s1, s2)]: same length and equal element by element. *)
Definition slices_Equal (l1 l2 : loc) (h : Heap) : bool :=
  bool_decide (deref h l1 = deref h l2).

(** Errors.  [clues.New], [clues.Wrap] and [clues.Stack] build the values
    ([ErrWrapNil] is [clues.Wrap] applied to a nil error); [ErrExternal]
    stands for whatever a collaborator outside these sources reports and
    [ErrItemAlreadyExistsConflict] for the sentinel of package [graph]. *)
Inductive error : Type :=
  | ErrNew (msg : string)
  | ErrWrap (inner : error) (msg : string)
  | ErrWrapNil (msg : string)
  | ErrStack (inner : error)
  | ErrExternal (code : string)
  | ErrItemAlreadyExistsConflict.

(** A [(T, error)] result; [Fail] is every return whose second component
    is built by a [clues] constructor or handed on from a callee. *)
Inductive res (T : Type) : Type :=
  | Ok (v : T)
  | Fail (e : error).
Arguments Ok {T} v.
Arguments Fail {T} e.

(** A call either returns or panics (an index out of range). *)
Inductive outcome (T : Type) : Type :=
  | Returns (v : T)
  | Panics.
Arguments Returns {T} v.
Arguments Panics {T}.

(** ** Package [metadata] *)

Definition SharingMode := Z.
Definition SharingModeCustom : SharingMode := 0%Z.
Definition SharingModeInherited : SharingMode := 1%Z.

Definition GV2Type := string.
Definition GV2App : GV2Type := "application".
Definition GV2Device : GV2Type := "device".
Definition GV2Group : GV2Type := "group".
Definition GV2SiteUser : GV2Type := "site_user".
Definition GV2SiteGroup : GV2Type := "site_group".
Definition GV2User : GV2Type := "user".

(** [time.Time], as an instant on some fixed scale. *)
Definition Time := Z.

Record Permission : Type := mkPermission {
  ID : string;
  Roles : loc;
  Email : string;
  EntityID : string;
  EntityType : GV2Type;
  Expiration : option Time
}.

Global Instance Permission_eq_dec : EqDecision Permission.
Proof. solve_decision. Defined.

(** Modelled from the spec: the declaration of [metadata.Metadata] is not
    among the sources; the data model gives it a sharing mode and an ordered
    sequence of permissions.  [emptyMetadata] is the Go zero value
    [metadata.Metadata{}]. *)
Record Metadata : Type := mkMetadata {
  MSharingMode : SharingMode;
  Permissions : list Permission
}.

Definition emptyMetadata : Metadata :=
  {| MSharingMode := 0%Z; Permissions := [] |}.

(** [func (p Permission) Equals(other Permission) bool].  The receiver and
    the argument are copies, their role arrays are not: both arrays are
    left sorted once the identifier checks have passed. *)
Definition Equals (p other : Permission) (h : Heap) : bool * Heap :=
  if bool_decide (EntityID p ≠ "") && bool_decide (EntityID p ≠ EntityID other)
  then (false, h)
  else if bool_decide (Email p ≠ "") && bool_decide (Email p ≠ Email other)
  then (false, h)
  else
    let p1r := Roles p in
    let p2r := Roles other in
    let h1 := slices_Sort p1r h in
    let h2 := slices_Sort p2r h1 in
    (slices_Equal p1r p2r h2, h2).

(** The inner loop of the first pass of [DiffPermissions]:
    [for _, pp := range before { if cp.Equals(pp) { found = true; break } }]. *)
Fixpoint foundInBefore (cp : Permission) (before : list Permission) (h : Heap)
  : bool * Heap :=
  match before with
  | [] => (false, h)
  | pp :: before' =>
      let '(eq, h') := Equals cp pp h in
      if eq then (true, h') else foundInBefore cp before' h'
  end.

(** The inner loop of the second pass:
    [for _, cp := range after { if cp.Equals(pp) { found = true; break } }]. *)
Fixpoint foundInAfter (pp : Permission) (after : list Permission) (h : Heap)
  : bool * Heap :=
  match after with
  | [] => (false, h)
  | cp :: after' =>
      let '(eq, h') := Equals cp pp h in
      if eq then (true, h') else foundInAfter pp after' h'
  end.

(** The two outer loops, with [added] and [removed] as accumulators that
    [append] extends at the end. *)
Fixpoint addedLoop (after before added : list Permission) (h : Heap)
  : list Permission * Heap :=
  match after with
  | [] => (added, h)
  | cp :: after' =>
      let '(found, h') := foundInBefore cp before h in
      addedLoop after' before (if found then added else added ++ [cp]) h'
  end.

Fixpoint removedLoop (before after removed : list Permission) (h : Heap)
  : list Permission * Heap :=
  match before with
  | [] => (removed, h)
  | pp :: before' =>
      let '(found, h') := foundInAfter pp after h in
      removedLoop before' after (if found then removed else removed ++ [pp]) h'
  end.

(** [func DiffPermissions(before, after []Permission) ([]Permission, []Permission)]:
    the pair [(added, removed)] and the heap it leaves. *)
Definition DiffPermissions (before after : list Permission) (h : Heap)
  : (list Permission * list Permission) * Heap :=
  let '(added, h1) := addedLoop after before [] h in
  let '(removed, h2) := removedLoop before after [] h1 in
  ((added, removed), h2).

(** The roles of a permission as a reader of the heap sees them. *)
Definition rolesOf (h : Heap) (p : Permission) : list string :=
  deref h (Roles p).

(** [cp] of [after] has no [Equals] match in [before], and [pp] of [before]
    has none in [after]; the receiver of [Equals] is the element of [after]
    in both, as in the two passes of [DiffPermissions]. *)
Definition noMatchInBefore (h : Heap) (before : list Permission)
    (cp : Permission) : Prop :=
  Forall (λ pp, (Equals cp pp h).1 = false) before.

Definition noMatchInAfter (h : Heap) (after : list Permission)
    (pp : Permission) : Prop :=
  Forall (λ cp, (Equals cp pp h).1 = false) after.

Global Instance noMatchInBefore_dec h before cp :
  Decision (noMatchInBefore h before cp).
Proof. unfold noMatchInBefore. apply _. Defined.

Global Instance noMatchInAfter_dec h after pp :
  Decision (noMatchInAfter h after pp).
Proof. unfold noMatchInAfter. apply _. Defined.

(** [h'] is [h] with some arrays sorted: what calls of [Equals] do to a heap. *)
Definition sortedFrom (h h' : Heap) : Prop :=
  ∀ l, deref h' l = deref h l ∨ deref h' l = sortStrings (deref h l).

(** The equality of permissions in the words of the data model: an
    identifier field empty on either side is ignored, a side with both
    identifier fields empty matches nothing, and the roles are compared as
    sets. *)
Definition identifierMatchSpec (x y : string) : Prop :=
  x = "" ∨ y = "" ∨ x = y.

Definition bothIdentifiersEmpty (p : Permission) : Prop :=
  EntityID p = "" ∧ Email p = "".

Definition EqualsSpec (h : Heap) (p other : Permission) : Prop :=
  ¬ bothIdentifiersEmpty p ∧ ¬ bothIdentifiersEmpty other ∧
  identifierMatchSpec (EntityID p) (EntityID other) ∧
  identifierMatchSpec (Email p) (Email other) ∧
  (∀ r, r ∈ rolesOf h p ↔ r ∈ rolesOf h other).

(** The partition property in the words of the specification, for a
    reading [eqv] of "equivalent under Equals": [after] and [(before minus
    removed)] with [added] cover each other up to [eqv], and no element of
    [added] is equivalent to an element of [removed]. *)
Definition partitionUpTo (eqv : Permission → Permission → Prop)
    (before after : list Permission) (h : Heap) : Prop :=
  let added := (DiffPermissions before after h).1.1 in
  let removed := (DiffPermissions before after h).1.2 in
  let kept := list_difference before removed in
  (∀ cp, cp ∈ after → ∃ q, q ∈ kept ++ added ∧ eqv cp q) ∧
  (∀ q, q ∈ kept ++ added → ∃ cp, cp ∈ after ∧ eqv cp q) ∧
  (∀ a r, a ∈ added → r ∈ removed → ¬ eqv a r).

(** [models.Permissionable] as [FilterPermissions] reads it: the identity
    set of [GetGrantedToV2], each member nil or an identity with an [Id]
    pointer, the roles, the [Id] pointer and the expiration. *)
Record Identity : Type := mkIdentity { identityId : option string }.

Record IdentitySet : Type := mkIdentitySet {
  gvUser : option Identity;
  gvSiteUser : option Identity;
  gvGroup : option Identity;
  gvSiteGroup : option Identity;
  gvApplication : option Identity;
  gvDevice : option Identity
}.

Record Permissionable : Type := mkPermissionable {
  pGetId : option string;
  pGetRoles : loc;
  pGetGrantedToV2 : option IdentitySet;
  pGetExpirationDateTime : option Time
}.

(** [ptr.Val] on a [*string]: the empty string for nil. *)
Definition ptrVal (s : option string) : string := default "" s.

(** The [switch true] of [FilterPermissions]: the first member of the
    identity set that is not nil gives the type and the entity ID; with none
    both stay at their zero value. *)
Definition classifyGrantee (gv2 : IdentitySet) : GV2Type * string :=
  match gvUser gv2 with
  | Some u => (GV2User, ptrVal (identityId u))
  | None =>
  match gvSiteUser gv2 with
  | Some u => (GV2SiteUser, ptrVal (identityId u))
  | None =>
  match gvGroup gv2 with
  | Some g => (GV2Group, ptrVal (identityId g))
  | None =>
  match gvSiteGroup gv2 with
  | Some g => (GV2SiteGroup, ptrVal (identityId g))
  | None =>
  match gvApplication gv2 with
  | Some a => (GV2App, ptrVal (identityId a))
  | None =>
  match gvDevice gv2 with
  | Some d => (GV2Device, ptrVal (identityId d))
  | None => ("", "")
  end end end end end end.

(** One iteration of the loop of [FilterPermissions], [up] being the slice
    built so far. *)
Definition filterPermission (up : list Permission) (p : Permissionable)
  : list Permission :=
  match pGetGrantedToV2 p with
  | None => up
  | Some gv2 =>
      let '(gv2t, entityID) := classifyGrantee gv2 in
      if bool_decide (entityID = "") then up
      else up ++ [ {| ID := ptrVal (pGetId p);
                      Roles := pGetRoles p;
                      Email := "";
                      EntityID := entityID;
                      EntityType := gv2t;
                      Expiration := pGetExpirationDateTime p |} ]
  end.

(** [func FilterPermissions(ctx, perms []models.Permissionable) []Permission]. *)
Definition FilterPermissions (perms : list Permissionable) : list Permission :=
  foldl filterPermission [] perms.

(** ** Package [version] *)

Definition Backup : Z := 3.
Definition OneDrive1DataAndMetaFiles : Z := 1.
Definition OneDrive3IsMetaMarker : Z := 3.

(** ** Package [path] *)

(** [path.DrivePath]: the drive, its root marker and the folders below it. *)
Record DrivePath : Type := mkDrivePath {
  DriveID : string;
  Root : string;
  DPFolders : list string
}.

(** Modelled from the spec: package [path] is not among the sources.
    [path.Path] is an interface; the functions below use [String], [Dir],
    [Folders] and the package function [ToDrivePath].  A walk "strictly
    upward (path's parent, its parent, ...)" ends, which [Dir_shortens]
    records: a parent has fewer elements than its child. *)
Class Path (P : Type) : Type := {
  PString : P → string;
  Dir : P → res P;
  Elements : P → list string;
  Folders : P → list string;
  ToDrivePath : P → res DrivePath;
  Dir_shortens : ∀ p q, Dir p = Ok q → length (Elements q) < length (Elements p)
}.

(** ** Package [onedrive] *)

(** Modelled from the spec: the declaration of [restoreCaches] is not among
    the sources; these are the two lookup tables the functions below use,
    "parentPathString → Metadata" and "oldPermissionID → newPermissionID". *)
Record restoreCaches : Type := mkRestoreCaches {
  ParentDirToMeta : gmap string Metadata;
  OldPermIDToNewID : gmap string string
}.

(** [models.DriveRecipient] and the invite request body, with the fields
    the code sets. *)
Record DriveRecipient : Type := mkDriveRecipient {
  objectId : option string;
  email : option string
}.

Record InviteBody : Type := mkInviteBody {
  roles : list string;
  expirationDateTime : option string;
  sendInvitation : option bool;
  requireSignIn : option bool;
  recipients : list DriveRecipient
}.

(** The remote calls [UpdatePermissions] emits, in the order it emits them. *)
Inductive Call : Type :=
  | CallDelete (driveID itemID permissionID : string)
  | CallPost (driveID itemID : string) (body : InviteBody).

Definition isDelete (c : Call) : bool :=
  match c with CallDelete _ _ _ => true | CallPost _ _ _ => false end.

Definition isPost (c : Call) : bool :=
  match c with CallDelete _ _ _ => false | CallPost _ _ _ => true end.

(** [updateDeleteItemPermissioner]: the remote service as a state [R] that
    each call may change.  A successful post answers the collection of
    permissions it created, of which the code reads the [Id] pointers. *)
Class updateDeleteItemPermissioner (R : Type) : Type := {
  DeleteItemPermission : R → string → string → string → R * option error;
  PostItemPermissionUpdate :
    R → string → string → InviteBody → R * res (list (option string))
}.

(** What a run acts on besides its arguments: the role arrays, the remote
    service, and the log of calls sent to it. *)
Record World (R : Type) : Type := mkWorld {
  heap : Heap;
  remote : R;
  calls : list Call
}.
Arguments mkWorld {R} heap remote calls.
Arguments heap {R} w.
Arguments remote {R} w.
Arguments calls {R} w.

Section onedrive.
Context {P : Type} `{Path P}.

(** [func getParentMetadata(parentPath, parentDirToMeta)]. *)
Definition getParentMetadata (parentPath : P)
    (parentDirToMeta : gmap string Metadata) : res Metadata :=
  match parentDirToMeta !! PString parentPath with
  | Some parentMeta => Ok parentMeta
  | None =>
      match ToDrivePath parentPath with
      | Fail err => Fail (ErrWrap err "invalid restore path")
      | Ok drivePath =>
          if bool_decide (length (DPFolders drivePath) ≠ 0)
          then Fail (ErrWrapNil "computing item permissions")
          else Ok emptyMetadata
      end
  end.

(** [func computeParentPermissions(ctx, originDir, parentMetas)]: the
    [for] loop, one iteration per call, [parent] being the loop variable. *)
Equations? computeParentPermissions (parent : P)
    (parentMetas : gmap string Metadata) : res Metadata
    by wf (length (Elements parent)) lt :=
  computeParentPermissions parent parentMetas with inspect (Dir parent) := {
    | exist _ (Fail _) _ => Fail (ErrNew "getting parent")
    | exist _ (Ok parent') Hdir =>
        match ToDrivePath parent' with
        | Fail _ => Fail (ErrNew "transforming dir to drivePath")
        | Ok drivePath =>
            if bool_decide (length (DPFolders drivePath) = 0)
            then Ok emptyMetadata
            else
              match parentMetas !! PString parent' with
              | None =>
                  Fail (ErrNew ("no metadata found for parent folder: "
                                +:+ PString parent'))
              | Some meta =>
                  if bool_decide (MSharingMode meta = SharingModeCustom)
                  then Ok meta
                  else computeParentPermissions parent' parentMetas
              end
        end }.
Proof. by apply Dir_shortens. Qed.

(** [version.OneDrive4DirIncludesPermissions],
    [version.OneDrive5DirMetaNoName] and [metadata.DirMetaFileSuffix]:
    constants whose declarations are not among the sources. *)
Variable OneDrive4DirIncludesPermissions : Z.
Variable OneDrive5DirMetaNoName : Z.
Variable DirMetaFileSuffix : string.

(** [data.RestoreCollection], of which [FullPath] is used here, and
    [fetchAndReadMetadata(ctx, dc, metaName)], which reads the named
    record out of the collection. *)
Context {C : Type}.
Variable FullPath : C → P.
Variable fetchAndReadMetadata : C → string → res Metadata.

(** [func getCollectionMetadata(ctx, drivePath, dc, caches, backupVersion,
    restorePerms)].  [folders[len(folders)-1]] is evaluated before the
    version test that may discard it, and panics on no folders. *)
Definition getCollectionMetadata (drivePath : DrivePath) (dc : C)
    (caches : restoreCaches) (backupVersion : Z) (restorePerms : bool)
    : outcome (res Metadata) :=
  if negb restorePerms || bool_decide (backupVersion < OneDrive1DataAndMetaFiles)%Z
  then Returns (Ok emptyMetadata)
  else
    let fullPath := FullPath dc in
    if bool_decide (length (DPFolders drivePath) = 0)
    then Returns (Ok emptyMetadata)
    else if bool_decide (backupVersion < OneDrive4DirIncludesPermissions)%Z
    then
      match getParentMetadata fullPath (ParentDirToMeta caches) with
      | Fail err => Returns (Fail (ErrWrap err "collection metadata"))
      | Ok colMeta => Returns (Ok colMeta)
      end
    else
      let folders := Folders fullPath in
      match last folders with
      | None => Panics
      | Some lastFolder =>
          let metaName := lastFolder +:+ DirMetaFileSuffix in
          let metaName :=
            if bool_decide (backupVersion >= OneDrive5DirMetaNoName)%Z
            then DirMetaFileSuffix
            else metaName in
          match fetchAndReadMetadata dc metaName with
          | Fail err => Returns (Fail (ErrWrap err "collection metadata"))
          | Ok meta => Returns (Ok meta)
          end
      end.

(** [time.Time.String], the rendering of an instant. *)
Variable Time_String : Time → string.

Context {R : Type} `{updateDeleteItemPermissioner R}.

(** The first loop of [UpdatePermissions], over [permRemoved].  [None]
    means the loop ran to its end. *)
Fixpoint removeLoop (driveID itemID : string) (permRemoved : list Permission)
    (oldPermIDToNewID : gmap string string) (w : World R)
    : option error * World R :=
  match permRemoved with
  | [] => (None, w)
  | p :: permRemoved' =>
      match oldPermIDToNewID !! ID p with
      | None => (Some (ErrNew "no new permission id"), w)
      | Some pid =>
          let '(r, err) := DeleteItemPermission (remote w) driveID itemID pid in
          let w' := mkWorld (heap w) r (calls w ++ [CallDelete driveID itemID pid]) in
          match err with
          | Some e => (Some (ErrStack e), w')
          | None => removeLoop driveID itemID permRemoved' oldPermIDToNewID w'
          end
      end
  end.

(** The request body built for one added permission out of the roles
    that are left once "owner" is dropped. *)
Definition inviteBody (p : Permission) (rs : list string) : InviteBody :=
  {| roles := rs;
     expirationDateTime := Time_String <$> Expiration p;
     sendInvitation := Some false;
     requireSignIn := Some true;
     recipients :=
       [ if bool_decide (0 < String.length (EntityID p))
         then {| objectId := Some (EntityID p); email := None |}
         else {| objectId := None; email := Some (Email p) |} ] |}.

Definition nonOwnerRoles (h : Heap) (p : Permission) : list string :=
  filter (λ r, r ≠ "owner") (rolesOf h p).

(** The second loop, over [permAdded].  [newPerm.GetValue()[0]] panics on
    an empty answer; [ptr.Val] of a nil [Id] is the empty string. *)
Fixpoint addLoop (driveID itemID : string) (permAdded : list Permission)
    (oldPermIDToNewID : gmap string string) (w : World R)
    : outcome (option error) * gmap string string * World R :=
  match permAdded with
  | [] => (Returns None, oldPermIDToNewID, w)
  | p :: permAdded' =>
      let rs := nonOwnerRoles (heap w) p in
      if bool_decide (length rs = 0) || bool_decide (EntityType p = GV2SiteGroup)
      then addLoop driveID itemID permAdded' oldPermIDToNewID w
      else
        let pbody := inviteBody p rs in
        let '(r, answer) :=
          PostItemPermissionUpdate (remote w) driveID itemID pbody in
        let w' := mkWorld (heap w) r (calls w ++ [CallPost driveID itemID pbody]) in
        match answer with
        | Fail err => (Returns (Some (ErrStack err)), oldPermIDToNewID, w')
        | Ok [] => (Panics, oldPermIDToNewID, w')
        | Ok (newID :: _) =>
            addLoop driveID itemID permAdded'
              (<[ID p := default "" newID]> oldPermIDToNewID) w'
        end
  end.

(** [func UpdatePermissions(ctx, udip, driveID, itemID, permAdded,
    permRemoved, oldPermIDToNewID) error], returning the error, the map it
    was handed (a Go map is a reference) and the world it leaves. *)
Definition UpdatePermissions (driveID itemID : string)
    (permAdded permRemoved : list Permission)
    (oldPermIDToNewID : gmap string string) (w : World R)
    : outcome (option error) * gmap string string * World R :=
  match removeLoop driveID itemID permRemoved oldPermIDToNewID w with
  | (Some err, w') => (Returns (Some err), oldPermIDToNewID, w')
  | (None, w') => addLoop driveID itemID permAdded oldPermIDToNewID w'
  end.

(** [func RestorePermissions(ctx, rh, driveID, itemID, itemPath, current,
    caches) error]. *)
Definition RestorePermissions (driveID itemID : string) (itemPath : P)
    (current : Metadata) (caches : restoreCaches) (w : World R)
    : outcome (option error) * restoreCaches * World R :=
  if bool_decide (MSharingMode current = SharingModeInherited)
  then (Returns None, caches, w)
  else
    match computeParentPermissions itemPath (ParentDirToMeta caches) with
    | Fail err => (Returns (Some (ErrWrap err "parent permissions")), caches, w)
    | Ok parents =>
        let '((permAdded, permRemoved), h) :=
          DiffPermissions (Permissions parents) (Permissions current) (heap w) in
        let '(result, ids, w') :=
          UpdatePermissions driveID itemID permAdded permRemoved
            (OldPermIDToNewID caches) (mkWorld h (remote w) (calls w)) in
        (result, mkRestoreCaches (ParentDirToMeta caches) ids, w')
    end.

End onedrive.

(** An added permission that [UpdatePermissions] sends to the remote: some
    role other than "owner" is left, and the entity is not a site group. *)
Definition restorable (h : Heap) (p : Permission) : Prop :=
  nonOwnerRoles h p ≠ [] ∧ EntityType p ≠ GV2SiteGroup.

Global Instance restorable_dec h p : Decision (restorable h p).
Proof. unfold restorable. apply _. Defined.

(** The delete call for a removed permission, under its new ID, and the
    create call for an added one. *)
Definition deleteCallFor (driveID itemID : string) (ids : gmap string string)
    (p : Permission) : option Call :=
  CallDelete driveID itemID <$> ids !! ID p.

Definition createCallFor (Time_String : Time → string) (driveID itemID : string)
    (h : Heap) (p : Permission) : Call :=
  CallPost driveID itemID (inviteBody Time_String p (nonOwnerRoles h p)).

(** ** Package [exchange] *)

(** [control.CollisionPolicy], the three policies of the collision table. *)
Inductive CollisionPolicy : Type :=
  | Skip
  | Copy
  | Replace.

Global Instance CollisionPolicy_eq_dec : EqDecision CollisionPolicy.
Proof. solve_decision. Defined.

(** The remote calls of a contact restore. *)
Inductive ContactCall : Type :=
  | CallPostItem (userID containerID : string)
  | CallDeleteItem (userID itemID : string).

Section exchange.
(** [models.Contactable] with the functions of package [api] that the
    test uses to build the item and its collision key; their code is not
    among the sources. *)
Variable Contact : Type.
Variable BytesToContactable : list Byte.byte → res Contact.
Variable ContactCollisionKey : Contact → string.
Variable ContactID : Contact → string.
Variable NewContact : Contact.

(** [contactRestorer], the interface the mock of the test implements. *)
Class contactRestorer (M : Type) : Type := {
  PostItem : M → string → string → Contact → M * (Contact * option error);
  DeleteItem : M → string → string → M * option error
}.

(** [contactRestoreMock] of [contacts_restore_test.go]: it records that a
    call was made and answers the error it was built with. *)
Record contactRestoreMock : Type := mkContactRestoreMock {
  postItemErr : option error;
  calledPost : bool;
  deleteItemErr : option error;
  calledDelete : bool
}.

Global Instance contactRestoreMock_restorer : contactRestorer contactRestoreMock := {
  PostItem m _ _ _ :=
    (mkContactRestoreMock (postItemErr m) true (deleteItemErr m) (calledDelete m),
     (NewContact, postItemErr m));
  DeleteItem m _ _ :=
    (mkContactRestoreMock (postItemErr m) (calledPost m) (deleteItemErr m) true,
     deleteItemErr m)
}.

Context {M : Type} `{contactRestorer M}.

(** Modelled from the spec: [restoreContact] is called by the test but its
    code is not among the sources.  Section 4.2: no entry for the
    collision key: create the item and record the new mapping; an entry
    and policy Skip: fail with the "already exists" conflict; an entry and
    Copy: create, no delete; an entry and Replace: create, then delete
    the old item by its cached ID, a failing delete propagating.  Any
    failing remote call fails the item.  Returned: the error, the
    collision map, the restorer and the calls made on it, in order. *)
Definition restoreContact (cr : M) (body : list Byte.byte)
    (userID destinationID : string)
    (collisionKeyToItemID : gmap string string)
    (collisionPolicy : CollisionPolicy)
    : option error * gmap string string * M * list ContactCall :=
  match BytesToContactable body with
  | Fail err =>
      (Some (ErrWrap err "creating contact from bytes"),
       collisionKeyToItemID, cr, [])
  | Ok contact =>
      let collisionKey := ContactCollisionKey contact in
      match collisionKeyToItemID !! collisionKey with
      | None =>
          let '(cr1, (item, err)) := PostItem cr userID destinationID contact in
          let log := [CallPostItem userID destinationID] in
          match err with
          | Some e => (Some (ErrWrap e "restoring contact"), collisionKeyToItemID, cr1, log)
          | None =>
              (None, <[collisionKey := ContactID item]> collisionKeyToItemID, cr1, log)
          end
      | Some collisionID =>
          if bool_decide (collisionPolicy = Skip)
          then (Some ErrItemAlreadyExistsConflict, collisionKeyToItemID, cr, [])
          else
            let '(cr1, (item, err)) := PostItem cr userID destinationID contact in
            let log := [CallPostItem userID destinationID] in
            match err with
            | Some e =>
                (Some (ErrWrap e "restoring contact"), collisionKeyToItemID, cr1, log)
            | None =>
                if bool_decide (collisionPolicy = Replace)
                then
                  let '(cr2, err2) := DeleteItem cr1 userID collisionID in
                  let log2 := log ++ [CallDeleteItem userID collisionID] in
                  match err2 with
                  | Some e =>
                      (Some (ErrWrap e "deleting colliding contact"),
                       collisionKeyToItemID, cr2, log2)
                  | None => (None, collisionKeyToItemID, cr2, log2)
                  end
                else (None, collisionKeyToItemID, cr1, log)
            end
      end
  end.

End exchange.

Arguments PostItem {Contact M _} _ _ _ _.
Arguments DeleteItem {Contact M _} _ _ _.

(** ** Package [api]: the drive pagers *)

(** The request builders a drive pager holds: the drives of a site or of a
    user, or whatever a next link points to. *)
Inductive Builder : Type :=
  | SiteDrives (siteID : string)
  | UserDrives (userID : string)
  | FromLink (link : string).

(** The [PageLinker]s of this file, over the drives [D]: a collection
    response of the SDK, which has [GetValue] and a next link, and the
    [nopUserDrivePageLinker] around one drive, which has neither. *)
Inductive PageLinker (D : Type) : Type :=
  | collectionResponse (values : list D) (nextLink : option string)
  | nopUserDrivePageLinker (drive : D).
Arguments collectionResponse {D} values nextLink.
Arguments nopUserDrivePageLinker {D} drive.

Definition GetOdataNextLink {D : Type} (l : PageLinker D) : option string :=
  match l with
  | collectionResponse _ nextLink => nextLink
  | nopUserDrivePageLinker _ => None
  end.

(** What a pager does that can be observed, in order. *)
Inductive PagerEvent : Type :=
  | EvGetPage
  | EvSleep (seconds : Z)
  | EvSetNext (link : string).

(** [DrivePager], an interface; its methods have pointer receivers, so each
    may change the pager.  A page is an interface value and may be nil. *)
Class DrivePager (Pg D : Type) : Type := {
  GetPage : Pg → Pg * res (option (PageLinker D));
  SetNext : Pg → string → Pg;
  ValuesIn : Pg → option (PageLinker D) → Pg * res (list D)
}.

(** The graph service behind the pagers: the [Get] of a drives request
    builder with its select fields, and the [Get] of a user's default
    drive. *)
Class driveService (G D : Type) : Type := {
  builderGet : G → Builder → list string → G * res (PageLinker D);
  defaultDriveGet : G → string → G * res D
}.

Section drive_pager.
Context {D : Type}.

(** [fmt.Sprintf("%T", l)], the name of the dynamic type of a page. *)
Variable typeName : option (PageLinker D) → string.

(** [func getValues[T any](l PageLinker) ([]T, error)]: the type assertion
    holds for a collection response only. *)
Definition getValues (l : option (PageLinker D)) : res (list D) :=
  match l with
  | Some (collectionResponse values _) => Ok values
  | _ => Fail (ErrNew "page does not comply with GetValue() interface")
  end.

Context {G : Type} `{driveService G D}.

(** [siteDrivePager], [NewSiteDrivePager] and its three methods. *)
Record siteDrivePager : Type := mkSiteDrivePager {
  sdpGs : G;
  sdpBuilder : Builder;
  sdpOptions : list string
}.

Definition NewSiteDrivePager (gs : G) (siteID : string) (fields : list string)
  : siteDrivePager :=
  {| sdpGs := gs; sdpOptions := fields; sdpBuilder := SiteDrives siteID |}.

Definition siteDrivePager_GetPage (p : siteDrivePager)
  : siteDrivePager * res (option (PageLinker D)) :=
  let '(gs, answer) := builderGet (sdpGs p) (sdpBuilder p) (sdpOptions p) in
  let p' := mkSiteDrivePager gs (sdpBuilder p) (sdpOptions p) in
  match answer with
  | Fail err => (p', Fail (ErrStack err))
  | Ok resp => (p', Ok (Some resp))
  end.

Definition siteDrivePager_SetNext (p : siteDrivePager) (link : string)
  : siteDrivePager :=
  mkSiteDrivePager (sdpGs p) (FromLink link) (sdpOptions p).

Definition siteDrivePager_ValuesIn (p : siteDrivePager)
    (l : option (PageLinker D)) : siteDrivePager * res (list D) :=
  (p, getValues l).

Global Instance siteDrivePager_pager : DrivePager siteDrivePager D := {
  GetPage := siteDrivePager_GetPage;
  SetNext := siteDrivePager_SetNext;
  ValuesIn := siteDrivePager_ValuesIn
}.

(** [userDrivePager], [NewUserDrivePager] and its three methods: the page
    is the user's default drive, whatever the builder. *)
Record userDrivePager : Type := mkUserDrivePager {
  udpUserID : string;
  udpGs : G;
  udpBuilder : Builder;
  udpOptions : list string
}.

Definition NewUserDrivePager (gs : G) (userID : string) (fields : list string)
  : userDrivePager :=
  {| udpUserID := userID; udpGs := gs; udpOptions := fields;
     udpBuilder := UserDrives userID |}.

Definition userDrivePager_GetPage (p : userDrivePager)
  : userDrivePager * res (option (PageLinker D)) :=
  let '(gs, answer) := defaultDriveGet (udpGs p) (udpUserID p) in
  let p' := mkUserDrivePager (udpUserID p) gs (udpBuilder p) (udpOptions p) in
  match answer with
  | Fail err => (p', Fail (ErrStack err))
  | Ok d => (p', Ok (Some (nopUserDrivePageLinker d)))
  end.

Definition userDrivePager_SetNext (p : userDrivePager) (link : string)
  : userDrivePager :=
  mkUserDrivePager (udpUserID p) (udpGs p) (FromLink link) (udpOptions p).

Definition userDrivePager_ValuesIn (p : userDrivePager)
    (l : option (PageLinker D)) : userDrivePager * res (list D) :=
  match l with
  | Some (nopUserDrivePageLinker drive) => (p, Ok [drive])
  | _ =>
      (p, Fail (ErrNew ("improper page linker struct for user drives: "
                        +:+ typeName l)))
  end.

Global Instance userDrivePager_pager : DrivePager userDrivePager D := {
  GetPage := userDrivePager_GetPage;
  SetNext := userDrivePager_SetNext;
  ValuesIn := userDrivePager_ValuesIn
}.

(** [clues.HasLabel(err, graph.LabelsMysiteNotFound)] and
    [graph.IsErrTimeout(err)], whose code is not among the sources. *)
Variable hasLabelMysiteNotFound : error → bool.
Variable IsErrTimeout : error → bool.

Context {Pg : Type} `{DrivePager Pg D}.

(** How the retry loop of [GetAllDrives] is left. *)
Inductive retryExit : Type :=
  | RetryPage (page : option (PageLinker D))
  | RetryNoDrives
  | RetryFailed (err : error).

(** The retry loop, [for i := 0; i <= maxRetryCount; i++], over the values
    [i] takes.  Run over no value at all it leaves [page] nil. *)
Fixpoint retryLoop (idxs : list Z) (maxRetryCount : Z) (pager : Pg)
    (log : list PagerEvent) : retryExit * Pg * list PagerEvent :=
  match idxs with
  | [] => (RetryPage None, pager, log)
  | i :: idxs' =>
      let '(pager1, answer) := GetPage pager in
      let log1 := log ++ [EvGetPage] in
      match answer with
      | Fail err =>
          if hasLabelMysiteNotFound err then (RetryNoDrives, pager1, log1)
          else if IsErrTimeout err && bool_decide (i < maxRetryCount)%Z
          then retryLoop idxs' maxRetryCount pager1
                 (log1 ++ [EvSleep (3 * (i + 1))])
          else (RetryFailed (ErrWrap err "retrieving drives"), pager1, log1)
      | Ok page => (RetryPage page, pager1, log1)
      end
  end.

(** The loop over the pages, [fuel] bounding the number of pages fetched:
    a pager may hand out next links for ever.  [None] is out of fuel.
    [page.GetOdataNextLink()] on a nil page panics. *)
Fixpoint pagesLoop (fuel : nat) (maxRetryCount : Z) (ds : list D) (pager : Pg)
    (log : list PagerEvent)
    : option (outcome (res (list D)) * Pg * list PagerEvent) :=
  match fuel with
  | 0 => None
  | S fuel' =>
      match retryLoop (seqZ 0 (maxRetryCount + 1)) maxRetryCount pager log with
      | (RetryNoDrives, pager1, log1) => Some (Returns (Ok []), pager1, log1)
      | (RetryFailed err, pager1, log1) => Some (Returns (Fail err), pager1, log1)
      | (RetryPage page, pager1, log1) =>
          let '(pager2, tmp) := ValuesIn pager1 page in
          match tmp with
          | Fail err =>
              Some (Returns (Fail (ErrWrap err "extracting drives from response")),
                    pager2, log1)
          | Ok tmp =>
              let ds := ds ++ tmp in
              match page with
              | None => Some (Panics, pager2, log1)
              | Some page =>
                  let nextLink := ptrVal (GetOdataNextLink page) in
                  if bool_decide (String.length nextLink = 0)
                  then Some (Returns (Ok ds), pager2, log1)
                  else pagesLoop fuel' maxRetryCount ds (SetNext pager2 nextLink)
                         (log1 ++ [EvSetNext nextLink])
              end
          end
      end
  end.

(** [func GetAllDrives(ctx, pager, retry, maxRetryCount)
    ([]models.Driveable, error)]. *)
Definition GetAllDrives (fuel : nat) (pager : Pg) (retry : bool)
    (maxRetryCount : Z)
    : option (outcome (res (list D)) * Pg * list PagerEvent) :=
  let maxRetryCount := if negb retry then 0%Z else maxRetryCount in
  pagesLoop fuel maxRetryCount [] pager [].

End drive_pager.

(** ** Package [ics] *)

(** [models.Locationable] and its [GetAddress], as [getLocationString]
    reads them: every field a [*string]. *)
Record PhysicalAddress : Type := mkPhysicalAddress {
  GetStreet : option string;
  GetCity : option string;
  GetState : option string;
  GetCountryOrRegion : option string;
  GetPostalCode : option string
}.

Record Location : Type := mkLocation {
  GetDisplayName : option string;
  GetAddress : option PhysicalAddress
}.

(** The segments [getLocationString] collects before it drops the empty
    ones: the display name, and the five address fields when there is an
    address. *)
Definition locationSegments (location : Location) : list string :=
  let dn := ptrVal (GetDisplayName location) in
  let segments := [dn] in
  match GetAddress location with
  | Some addr =>
      let street := ptrVal (GetStreet addr) in
      let city := ptrVal (GetCity addr) in
      let state := ptrVal (GetState addr) in
      let country := ptrVal (GetCountryOrRegion addr) in
      let postal := ptrVal (GetPostalCode addr) in
      segments ++ [street; city; state; country; postal]
  | None => segments
  end.

(** [func getLocationString(location models.Locationable) string];
    [strings.Join] is [String.concat] with the separator first. *)
Definition getLocationString (location : option Location) : string :=
  match location with
  | None => ""
  | Some location =>
      let nonEmpty := filter (λ seg, 0 < String.length seg) (locationSegments location) in
      String.concat ", " nonEmpty
  end.

(** The recurrence of an event as [getRecurrencePattern] reads it.  The
    days of the week and the week index are kept by the names their
    [String] methods give; [GetDaysOfWeek] may be nil. *)
Inductive RecurrencePatternType : Type :=
  | DAILY
  | WEEKLY
  | ABSOLUTEMONTHLY
  | RELATIVEMONTHLY
  | ABSOLUTEYEARLY
  | RELATIVEYEARLY.

Inductive RecurrenceRangeType : Type :=
  | ENDDATE
  | NOEND
  | NUMBERED.

Global Instance RecurrencePatternType_eq_dec : EqDecision RecurrencePatternType.
Proof. solve_decision. Defined.

Record RecurrencePattern : Type := mkRecurrencePattern {
  GetTypeEscaped : option RecurrencePatternType;
  GetInterval : option Z;
  GetMonth : option Z;
  GetDayOfMonth : option Z;
  GetDaysOfWeek : option (list string);
  GetIndex : option string
}.

Record RecurrenceRange : Type := mkRecurrenceRange {
  GetRangeType : option RecurrenceRangeType;
  GetEndDate : option string;
  GetRecurrenceTimeZone : option string;
  GetNumberOfOccurrences : option Z
}.

Record PatternedRecurrence : Type := mkPatternedRecurrence {
  GetPattern : option RecurrencePattern;
  GetRangeEscaped : option RecurrenceRange
}.

Section ics.
(** [dttm.ParseTime], the table [GraphTimeZoneToTZ], [time.LoadLocation],
    and [time.Date(...).UTC()], which reads the parsed clock in a location:
    not among the sources. *)
Variable ParseTime : string → res Time.
Variable GraphTimeZoneToTZ : gmap string string.
Variable LoadLocation : string → res string.
Variable inLocationUTC : Time → string → Time.

(** [func getUTCTime(ts, tz string) (time.Time, error)]; the time returned
    beside an error is not read by any caller. *)
Definition getUTCTime (ts tz : string) : res Time :=
  match ParseTime ts with
  | Fail err => Fail (ErrWrap err "parsing time")
  | Ok it =>
      match GraphTimeZoneToTZ !! tz with
      | None => Fail (ErrNew "unknown timezone")
      | Some timezone =>
          match LoadLocation timezone with
          | Fail err => Fail (ErrWrap err "loading timezone")
          | Ok loc => Ok (inLocationUTC it loc)
          end
      end
  end.

(** The table [GraphToICalDOW]; [fmt.Sprint(GraphToICalIndex[name])] for
    the name of a week index; [Time.Format("20060102T150405Z")]; and the
    zero values of the two enumerations, which [ptr.Val] gives for nil. *)
Variable GraphToICalDOW : gmap string string.
Variable sprintICalIndex : string → string.
Variable formatICal : Time → string.
Variable zeroPatternType : RecurrencePatternType.
Variable zeroRangeType : RecurrenceRangeType.

(** What each step of [getRecurrencePattern] appends to [recurComponents]. *)
Definition freqComponent (freq : option RecurrencePatternType) : list string :=
  match freq with
  | Some DAILY => ["FREQ=DAILY"]
  | Some WEEKLY => ["FREQ=WEEKLY"]
  | Some ABSOLUTEMONTHLY | Some RELATIVEMONTHLY => ["FREQ=MONTHLY"]
  | Some ABSOLUTEYEARLY | Some RELATIVEYEARLY => ["FREQ=YEARLY"]
  | None => []
  end.

Definition intervalComponent (interval : option Z) : list string :=
  match interval with
  | Some n => ["INTERVAL=" +:+ pretty n]
  | None => []
  end.

Definition monthComponent (month : Z) : list string :=
  if bool_decide (0 < month)%Z then ["BYMONTH=" +:+ pretty month] else [].

Definition monthDayComponent (day : Z) : list string :=
  if bool_decide (0 < day)%Z then ["BYMONTHDAY=" +:+ pretty day] else [].

(** The loop over the days of the week, [dowComponents] being the slice
    built so far. *)
Fixpoint dowLoop (dow : list string) (dowComponents : list string)
  : res (list string) :=
  match dow with
  | [] => Ok dowComponents
  | day :: dow' =>
      match GraphToICalDOW !! day with
      | None => Fail (ErrNew "unknown day of week")
      | Some icalday => dowLoop dow' (dowComponents ++ [icalday])
      end
  end.

Definition byDayComponent (pat : RecurrencePattern) : res (list string) :=
  match GetDaysOfWeek pat with
  | None => Ok []
  | Some dow =>
      match dowLoop dow [] with
      | Fail err => Fail err
      | Ok dowComponents =>
          let freq := default zeroPatternType (GetTypeEscaped pat) in
          let prefix :=
            match GetIndex pat with
            | Some index =>
                if bool_decide (freq = RELATIVEMONTHLY)
                   || bool_decide (freq = RELATIVEYEARLY)
                then sprintICalIndex index else ""
            | None => ""
            end in
          Ok ["BYDAY=" +:+ prefix +:+ String.concat "," dowComponents]
      end
  end.

Definition rangeComponent (rrange : option RecurrenceRange) : res (list string) :=
  match rrange with
  | None => Ok []
  | Some rrange =>
      match default zeroRangeType (GetRangeType rrange) with
      | ENDDATE =>
          match GetEndDate rrange with
          | None => Ok []
          | Some endDate =>
              match getUTCTime endDate (ptrVal (GetRecurrenceTimeZone rrange)) with
              | Fail err => Fail (ErrWrap err "parsing end time")
              | Ok endTime => Ok ["UNTIL=" +:+ formatICal endTime]
              end
          end
      | NOEND => Ok []
      | NUMBERED =>
          let count := default 0%Z (GetNumberOfOccurrences rrange) in
          if bool_decide (0 < count)%Z then Ok ["COUNT=" +:+ pretty count] else Ok []
      end
  end.

(** [recurComponents] as [getRecurrencePattern] has built it when it
    returns; a nil pattern panics on its first use. *)
Definition recurComponents (recurrence : PatternedRecurrence)
  : outcome (res (list string)) :=
  match GetPattern recurrence with
  | None => Panics
  | Some pat =>
      let recurComponents := [] in
      let recurComponents := recurComponents ++ freqComponent (GetTypeEscaped pat) in
      let recurComponents := recurComponents ++ intervalComponent (GetInterval pat) in
      let recurComponents :=
        recurComponents ++ monthComponent (default 0%Z (GetMonth pat)) in
      let recurComponents :=
        recurComponents ++ monthDayComponent (default 0%Z (GetDayOfMonth pat)) in
      match byDayComponent pat with
      | Fail err => Returns (Fail err)
      | Ok byDay =>
          let recurComponents := recurComponents ++ byDay in
          match rangeComponent (GetRangeEscaped recurrence) with
          | Fail err => Returns (Fail err)
          | Ok range => Returns (Ok (recurComponents ++ range))
          end
      end
  end.

(** [func getRecurrencePattern(ctx, recurrence) (string, error)]. *)
Definition getRecurrencePattern (recurrence : PatternedRecurrence)
  : outcome (res string) :=
  match recurComponents recurrence with
  | Panics => Panics
  | Returns (Fail err) => Returns (Fail err)
  | Returns (Ok components) => Returns (Ok (String.concat ";" components))
  end.

(** What a rule says under a key, read off the recurrence:
    - FREQ: one of the four frequencies;
    - INTERVAL: the interval, in decimal;
    - BYMONTH, BYMONTHDAY: the month and the day of the month, positive, in
      decimal;
    - BYDAY: the names the table gives for the days of the week, in their
      order, joined by ",", after the index where there is one;
    - UNTIL: the end date, in UTC as [getUTCTime] gives it, formatted;
    - COUNT: the number of occurrences, positive, in decimal. *)
Definition ruleValue (recurrence : PatternedRecurrence) (key value : string)
  : Prop :=
  ∃ pat, GetPattern recurrence = Some pat ∧
    ((key = "FREQ" ∧ value ∈ ["DAILY"; "WEEKLY"; "MONTHLY"; "YEARLY"]) ∨
     (key = "INTERVAL" ∧ ∃ n, GetInterval pat = Some n ∧ value = pretty n) ∨
     (key = "BYMONTH" ∧
        ∃ n, GetMonth pat = Some n ∧ (0 < n)%Z ∧ value = pretty n) ∨
     (key = "BYMONTHDAY" ∧
        ∃ n, GetDayOfMonth pat = Some n ∧ (0 < n)%Z ∧ value = pretty n) ∨
     (key = "BYDAY" ∧
        ∃ dow days prefix,
          GetDaysOfWeek pat = Some dow ∧
          Forall2 (λ day icalday, GraphToICalDOW !! day = Some icalday) dow days ∧
          (prefix = "" ∨
           ∃ index, GetIndex pat = Some index ∧ prefix = sprintICalIndex index) ∧
          value = prefix +:+ String.concat "," days) ∨
     (key = "UNTIL" ∧
        ∃ rrange endDate endTime,
          GetRangeEscaped recurrence = Some rrange ∧
          GetEndDate rrange = Some endDate ∧
          getUTCTime endDate (ptrVal (GetRecurrenceTimeZone rrange)) = Ok endTime ∧
          value = formatICal endTime) ∨
     (key = "COUNT" ∧
        ∃ rrange n,
          GetRangeEscaped recurrence = Some rrange ∧
          GetNumberOfOccurrences rrange = Some n ∧ (0 < n)%Z ∧
          value = pretty n)).

End ics.

(** The key and the value of a component of a rule: the text before its
    first "=", and the text after it. *)
Fixpoint componentKey (component : string) : string :=
  match component with
  | EmptyString => EmptyString
  | String c rest =>
      if Ascii.eqb c "="%char then EmptyString else String c (componentKey rest)
  end.

Fixpoint componentValue (component : string) : string :=
  match component with
  | EmptyString => EmptyString
  | String c rest => if Ascii.eqb c "="%char then rest else componentValue rest
  end.

(** The keys of a rule, in the order of RFC 5545 that [getRecurrencePattern]
    follows, ending in the given one. *)
Definition ruleKeys (last : string) : list string :=
  ["FREQ"; "INTERVAL"; "BYMONTH"; "BYMONTHDAY"; "BYDAY"; last].

(** ** Package [api]: calendars by name *)

(** The [Get] on a user's calendars with a filter. *)
Class calendarService (G Cal : Type) : Type := {
  calendarsGet : G → string → string → G * res (list Cal)
}.

Section events.
Context {G Cal : Type} `{calendarService G Cal}.

(** [graph.CheckIDAndName] on the calendar as a [CalendarDisplayable]; its
    code is not among the sources. *)
Variable CheckIDAndName : Cal → option error.

(** [func (c Events) GetContainerByName(ctx, userID, containerName)
    (models.Calendarable, error)]. *)
Definition GetContainerByName (gs : G) (userID containerName : string)
  : G * res Cal :=
  let filter := "name eq '" +:+ containerName +:+ "'" in
  let '(gs', answer) := calendarsGet gs userID filter in
  match answer with
  | Fail err => (gs', Fail (ErrStack err))
  | Ok values =>
      match values with
      | [cal] =>
          match CheckIDAndName cal with
          | Some err => (gs', Fail err)
          | None => (gs', Ok cal)
          end
      | _ => (gs', Fail (ErrNew "unexpected number of calendars returned"))
      end
  end.

End events.

(** ** Package [sharepoint]: restoring one list *)

(** The calls a list restore sends to the site, in order: the list, under
    its new name and with the items it carries, then items into a list. *)
Inductive ListCall (Item : Type) : Type :=
  | CallPostList (siteID newName : string) (items : list Item)
  | CallPostListItem (siteID listID : string) (item : Item).
Arguments CallPostList {Item} siteID newName items.
Arguments CallPostListItem {Item} siteID listID item.

(** The site behind [service.Client().Sites().BySiteId(siteID).Lists()]:
    posting a list answers the restored list, of which the [Id] pointer is
    read, or an error; posting an item into a list answers an error or
    none. *)
Class listService (G ListT Item Restored : Type) : Type := {
  listsPost : G → string → ListT → string → list Item → G * res Restored;
  listItemsPost : G → string → string → Item → G * option error
}.

Section sharepoint.
Context {G ListT Item Restored Info : Type} `{listService G ListT Item Restored}.

(** A backed-up item: its UUID and what reading it gives. *)
Record Stream : Type := mkStream {
  UUID : string;
  ToReader : res (list Byte.byte)
}.

(** [betaAPI.CreateListFromBytes], the display name and items of the list
    read, [betaAPI.CloneListItem], the [Id] of the restored list, and
    [listToSPInfo]: not among the sources.  [betaAPI.ToListable(oldList,
    newName)] with [SetItems(contents)] is the list handed to [listsPost]
    with its new name and items. *)
Variable CreateListFromBytes : list Byte.byte → res ListT.
Variable ListDisplayName : ListT → option string.
Variable ListItems : ListT → list Item.
Variable CloneListItem : Item → Item.
Variable RestoredId : Restored → option string.
Variable listToSPInfo : Restored → Z → Info.

(** The loop that posts the items, one by one, until one fails. *)
Fixpoint postListItems (siteID listID : string) (contents : list Item)
    (gs : G) (log : list (ListCall Item)) : option error * G * list (ListCall Item) :=
  match contents with
  | [] => (None, gs, log)
  | lItem :: contents' =>
      let '(gs', err) := listItemsPost gs siteID listID lItem in
      let log' := log ++ [CallPostListItem siteID listID lItem] in
      match err with
      | Some err => (Some (ErrWrap err "restoring list items"), gs', log')
      | None => postListItems siteID listID contents' gs' log'
      end
  end.

(** [func restoreListItem(ctx, service, itemData, siteID, destName)
    (details.ItemInfo, error)]. *)
Definition restoreListItem (gs : G) (itemData : Stream) (siteID destName : string)
  : res Info * G * list (ListCall Item) :=
  let listName := UUID itemData in
  match ToReader itemData with
  | Fail err => (Fail (ErrWrap err "reading backup data"), gs, [])
  | Ok byteArray =>
      match CreateListFromBytes byteArray with
      | Fail err => (Fail (ErrWrap err "creating item"), gs, [])
      | Ok oldList =>
          let listName :=
            match ListDisplayName oldList with
            | Some name => name
            | None => listName
            end in
          let newName := destName +:+ "_" +:+ listName in
          let contents := CloneListItem <$> ListItems oldList in
          let '(gs1, answer) := listsPost gs siteID oldList newName contents in
          let log := [CallPostList siteID newName contents] in
          match answer with
          | Fail err => (Fail (ErrWrap err "restoring list"), gs1, log)
          | Ok restoredList =>
              match postListItems siteID (ptrVal (RestoredId restoredList))
                      contents gs1 log with
              | (Some err, gs2, log2) => (Fail err, gs2, log2)
              | (None, gs2, log2) =>
                  (Ok (listToSPInfo restoredList (Z.of_nat (length byteArray))),
                   gs2, log2)
              end
          end
      end
  end.

End sharepoint.

(** ** Concrete collaborators, to run the functions on examples *)

(** Modelled from the spec: a hierarchical path as the list of its elements,
    tenant, service, owner and category first, the folders after them.  The
    folders of a drive path start with [drives], the drive ID and the root
    marker; what follows are the folders "left" below the root.  The parent
    drops the last element; the four leading elements cannot be dropped. *)
Record listPath : Type := mkListPath { lpElements : list string }.

Definition listPath_Dir (p : listPath) : res listPath :=
  if bool_decide (length (lpElements p) ≤ 4)
  then Fail (ErrNew "unable to shorten path")
  else Ok (mkListPath (take (length (lpElements p) - 1) (lpElements p))).

Definition listPath_ToDrivePath (p : listPath) : res DrivePath :=
  match drop 4 (lpElements p) with
  | _ :: driveID :: root :: folders => Ok (mkDrivePath driveID root folders)
  | _ => Fail (ErrNew "folder path doesn't match expected format for Drive items")
  end.

Global Program Instance listPath_Path : Path listPath := {
  PString p := String.concat "/" (lpElements p);
  Dir := listPath_Dir;
  Elements := lpElements;
  Folders p := drop 4 (lpElements p);
  ToDrivePath := listPath_ToDrivePath
}.
Next Obligation.
  intros p q. unfold listPath_Dir. destruct (bool_decide_reflect (length (lpElements p) ≤ 4));
    [done|]. intros [= <-]. simpl. rewrite length_take. lia.
Qed.

(** A remote service that accepts every call and names the permissions it
    creates after the number of calls it has served. *)
Record obligingRemote : Type := mkObligingRemote { served : nat }.

Definition freshID (n : nat) : string :=
  "new-" +:+ String (Ascii.ascii_of_nat (48 + n `mod` 10)) "".

Global Instance obligingRemote_udip : updateDeleteItemPermissioner obligingRemote := {
  DeleteItemPermission r _ _ _ := (mkObligingRemote (S (served r)), None);
  PostItemPermissionUpdate r _ _ _ :=
    (mkObligingRemote (S (served r)), Ok [Some (freshID (served r))])
}.

(** A graph service that answers from a script: the answers still to give
    to [Get] on a drives builder, the builders it was asked with so far,
    the answer about the default drive, and the users it was asked for. *)
Record scriptedService (D : Type) : Type := mkScriptedService {
  pending : list (res (PageLinker D));
  requested : list Builder;
  theDefaultDrive : res D;
  askedFor : list string
}.
Arguments mkScriptedService {D} pending requested theDefaultDrive askedFor.
Arguments pending {D} s.
Arguments requested {D} s.
Arguments theDefaultDrive {D} s.
Arguments askedFor {D} s.

Global Instance scriptedService_service {D : Type} : driveService (scriptedService D) D := {
  builderGet g b _ :=
    match pending g with
    | [] =>
        (mkScriptedService [] (requested g ++ [b]) (theDefaultDrive g) (askedFor g),
         Fail (ErrExternal "nothing left to answer"))
    | answer :: rest =>
        (mkScriptedService rest (requested g ++ [b]) (theDefaultDrive g) (askedFor g),
         answer)
    end;
  defaultDriveGet g userID :=
    (mkScriptedService (pending g) (requested g) (theDefaultDrive g)
       (askedFor g ++ [userID]),
     theDefaultDrive g)
}.

(** Pages that each have drives and a link to the next: what they hold,
    the links they carry, and the events of walking through them. *)
Definition linkedPage {D : Type} (pg : list D * string) : res (PageLinker D) :=
  Ok (collectionResponse pg.1 (Some pg.2)).

Definition walkEvents (links : list string) : list PagerEvent :=
  links ≫= λ link, [EvGetPage; EvSetNext link].

(** The events of [k] attempts that each time out and are retried. *)
Definition retryEvents (k : nat) : list PagerEvent :=
  seqZ 0 (Z.of_nat k) ≫= λ i, [EvGetPage; EvSleep (3 * (i + 1))].

(** [timesOut hasLabel isTimeout pager errs pager']: asked [length errs]
    times in a row, the pager answers the errors [errs], each a timeout
    without the "mysite not found" label, and is then [pager']. *)
Inductive timesOut {Pg D : Type} `{DrivePager Pg D}
    (hasLabelMysiteNotFound IsErrTimeout : error → bool)
  : Pg → list error → Pg → Prop :=
  | timesOut_nil pager :
      timesOut hasLabelMysiteNotFound IsErrTimeout pager [] pager
  | timesOut_cons pager pager1 pager' err errs :
      GetPage pager = (pager1, Fail err) →
      hasLabelMysiteNotFound err = false → IsErrTimeout err = true →
      timesOut hasLabelMysiteNotFound IsErrTimeout pager1 errs pager' →
      timesOut hasLabelMysiteNotFound IsErrTimeout pager (err :: errs) pager'.

(** ** The upward walk of the parent permission resolver *)

(** [walksTo metas p a]: walking strictly upward from [p], the ancestor [a]
    is reached, every ancestor passed on the way lying below the root,
    having its metadata in the cache, and not having custom sharing. *)
Inductive walksTo {P : Type} `{Path P} (metas : gmap string Metadata)
  : P → P → Prop :=
  | walksTo_parent p a :
      Dir p = Ok a → walksTo metas p a
  | walksTo_further p a b dp m :
      Dir p = Ok a →
      ToDrivePath a = Ok dp → DPFolders dp ≠ [] →
      metas !! PString a = Some m → MSharingMode m ≠ SharingModeCustom →
      walksTo metas a b →
      walksTo metas p b.

(** ** The early-version rule in the words of the spec *)

(** "Early permission versions derive a container's metadata by inheriting
    from its nearest ancestor already in cache": the metadata cached for the
    first ancestor, walking upward, that the cache holds. *)
Equations? nearestCachedAncestor {P : Type} `{Path P} (p : P)
    (metas : gmap string Metadata) : option Metadata
    by wf (length (Elements p)) lt :=
  nearestCachedAncestor p metas with inspect (Dir p) := {
    | exist _ (Fail _) _ => None
    | exist _ (Ok a) Hdir =>
        match metas !! PString a with
        | Some m => Some m
        | None => nearestCachedAncestor a metas
        end }.
Proof. by apply Dir_shortens. Qed.

(** ** Example data *)

(** Role arrays at four addresses: two orderings of the same roles, a
    doubled role, and a single one. *)
Definition exampleHeap : Heap :=
  {[ 1 := ["write"; "read"]; 2 := ["read"; "write"];
     3 := ["read"; "read"]; 4 := ["read"] ]}.

(** A legacy permission, known by e-mail only, and the same grant in a
    newer backup, where the entity ID is known too. *)
Definition legacyGrant : Permission :=
  mkPermission "p1" 1 "ann@example.com" "" GV2User None.

Definition currentGrant : Permission :=
  mkPermission "p2" 2 "ann@example.com" "u-17" GV2User None.

(** A permission with no identifier at all, and an unrelated one. *)
Definition anonymousGrant : Permission :=
  mkPermission "p3" 1 "" "" GV2User None.

Definition otherGrant : Permission :=
  mkPermission "p4" 2 "bob@example.com" "u-99" GV2User None.

(** Two grants to one entity whose role arrays hold the same roles, one of
    them twice. *)
Definition doubledGrant : Permission :=
  mkPermission "p5" 3 "" "u-17" GV2User None.

Definition singleGrant : Permission :=
  mkPermission "p6" 4 "" "u-17" GV2User None.

(** An item two folders below the root of a drive, its ancestors, and
    three states of the parent-metadata cache. *)
Definition exampleItemPath : listPath :=
  mkListPath ["tenant"; "onedrive"; "owner"; "files";
              "drives"; "d1"; "root:"; "a"; "b"; "item.txt"].

Definition folderB : listPath :=
  mkListPath ["tenant"; "onedrive"; "owner"; "files"; "drives"; "d1"; "root:"; "a"; "b"].

Definition folderA : listPath :=
  mkListPath ["tenant"; "onedrive"; "owner"; "files"; "drives"; "d1"; "root:"; "a"].

Definition driveRoot : listPath :=
  mkListPath ["tenant"; "onedrive"; "owner"; "files"; "drives"; "d1"; "root:"].

Definition inheritedMeta : Metadata := mkMetadata SharingModeInherited [].
Definition customMeta : Metadata := mkMetadata SharingModeCustom [currentGrant].

Definition cacheAllInherited : gmap string Metadata :=
  {[ PString folderB := inheritedMeta; PString folderA := inheritedMeta ]}.

Definition cacheCustomA : gmap string Metadata :=
  {[ PString folderB := inheritedMeta; PString folderA := customMeta ]}.

Definition cacheWithoutA : gmap string Metadata :=
  {[ PString folderB := inheritedMeta ]}.

(** A rendering of instants, a world with nothing sent yet, and an item
    whose own metadata says "inherited" although it lists a permission. *)
Definition exampleTimeString (t : Time) : string :=
  if bool_decide (t = 0%Z) then "1970-01-01 00:00:00 +0000 UTC" else "later".

Definition exampleWorld : World obligingRemote :=
  mkWorld exampleHeap (mkObligingRemote 0) [].

Definition inheritedItemMeta : Metadata :=
  mkMetadata SharingModeInherited [currentGrant].

Definition exampleCaches : restoreCaches :=
  mkRestoreCaches cacheCustomA {[ "p1" := "new-p1" ]}.

(** A restore collection as its path and the metadata records stored in
    it by name, read by a [fetchAndReadMetadata] that fails on a missing
    record; the version constants as 4 and 5. *)
Record exampleCollection : Type := mkExampleCollection {
  colPath : listPath;
  colRecords : gmap string Metadata
}.

Definition exampleFetch (dc : exampleCollection) (name : string) : res Metadata :=
  match colRecords dc !! name with
  | Some m => Ok m
  | None => Fail (ErrExternal "record not found")
  end.

Definition collectionB : exampleCollection :=
  mkExampleCollection folderB
    {[ "b.dirmeta" := customMeta; ".dirmeta" := inheritedMeta ]}.

Definition drivePathB : DrivePath := mkDrivePath "d1" "root:" ["a"; "b"].

Definition cacheOnlyA : restoreCaches :=
  mkRestoreCaches {[ PString folderA := customMeta ]} ∅.

Definition cacheAandB : restoreCaches :=
  mkRestoreCaches cacheCustomA ∅.

Definition exampleGetCollectionMetadata :=
  getCollectionMetadata 4 5 ".dirmeta" colPath exampleFetch.

(** Contacts for the collision table: a contact is its serialised body,
    an empty body does not decode, and the collision key is the body read
    as text. *)
Definition exampleBytesToContactable (body : list Byte.byte)
  : res (list Byte.byte) :=
  match body with
  | [] => Fail (ErrExternal "empty body")
  | _ => Ok body
  end.

Definition exampleCollisionKey (c : list Byte.byte) : string :=
  String.string_of_list_byte c.

Definition exampleContactID (c : list Byte.byte) : string := "new-contact".

Definition exampleBody : list Byte.byte :=
  String.list_byte_of_string "middlename".

Definition exampleRestoreContact :=
  restoreContact (list Byte.byte) exampleBytesToContactable exampleCollisionKey
    exampleContactID (H := contactRestoreMock_restorer (list Byte.byte) []).

(** The two-level scenario: [folderA] is shared with U1 for reading, and
    the item below it with U1 for reading and U2 for writing. *)
Definition scenarioHeap : Heap :=
  {[ 10 := ["read"]; 11 := ["read"]; 12 := ["write"] ]}.

Definition scenarioItemPath : listPath :=
  mkListPath ["tenant"; "onedrive"; "owner"; "files";
              "drives"; "d1"; "root:"; "folderA"; "item1"].

Definition scenarioFolderA : listPath :=
  mkListPath ["tenant"; "onedrive"; "owner"; "files"; "drives"; "d1"; "root:"; "folderA"].

Definition folderRead : Permission := mkPermission "f1" 10 "" "U1" GV2User None.
Definition itemRead : Permission := mkPermission "i1" 11 "" "U1" GV2User None.
Definition itemWrite : Permission := mkPermission "i2" 12 "" "U2" GV2User None.

Definition scenarioCaches : restoreCaches :=
  mkRestoreCaches
    {[ PString scenarioFolderA := mkMetadata SharingModeCustom [folderRead] ]} ∅.

(** Three entries as the remote lists them: a link share without grantee,
    a user that is also listed as a site user, and a group whose ID is
    missing. *)
Definition linkShare : Permissionable :=
  mkPermissionable (Some "r1") 1 None None.

Definition userShare : Permissionable :=
  mkPermissionable (Some "r2") 2
    (Some (mkIdentitySet (Some (mkIdentity (Some "u-17")))
             (Some (mkIdentity (Some "s-3"))) None None None None)) None.

Definition groupShare : Permissionable :=
  mkPermissionable (Some "r3") 4
    (Some (mkIdentitySet None None (Some (mkIdentity None)) None None None)) None.

Definition sameUserShare : Permissionable :=
  mkPermissionable None 1
    (Some (mkIdentitySet (Some (mkIdentity (Some "u-17"))) None None None None None))
    (Some 0%Z).

(** Drives as their names, the two errors the retry loop tells apart, and a
    rendering of page types. *)
Global Instance error_eq_dec : EqDecision error.
Proof. solve_decision. Defined.

Definition exampleHasLabel (err : error) : bool :=
  bool_decide (err = ErrStack (ErrExternal "mysite not found")).

Definition exampleIsTimeout (err : error) : bool :=
  bool_decide (err = ErrStack (ErrExternal "timeout")).

Definition exampleTypeName (l : option (PageLinker string)) : string :=
  match l with
  | None => "<nil>"
  | Some (collectionResponse _ _) => "*models.DriveCollectionResponse"
  | Some (nopUserDrivePageLinker _) => "*api.nopUserDrivePageLinker"
  end.

Definition timingOutService : scriptedService string :=
  mkScriptedService [Fail (ErrExternal "timeout"); Fail (ErrExternal "timeout")]
    [] (Ok "default drive") [].

Definition recoveringService : scriptedService string :=
  mkScriptedService
    [Fail (ErrExternal "timeout"); Ok (collectionResponse ["drive A"] None)]
    [] (Ok "default drive") [].

(** What the recurrence functions need from outside, for examples: times
    are read as 0, two days of the week are known, and instants, indices
    and locations are rendered by fixed texts. *)
Definition exampleDOW : gmap string string :=
  {[ "monday" := "MO"; "friday" := "FR" ]}.

Definition exampleRecurComponents :=
  recurComponents (λ _, Ok 0%Z) {[ "UTC" := "Etc/UTC" ]} (λ tz, Ok tz) (λ t _, t)
    exampleDOW (λ _, "1") (λ _, "20300101T000000Z") DAILY ENDDATE.

Definition exampleGetRecurrencePattern :=
  getRecurrencePattern (λ _, Ok 0%Z) {[ "UTC" := "Etc/UTC" ]} (λ tz, Ok tz) (λ t _, t)
    exampleDOW (λ _, "1") (λ _, "20300101T000000Z") DAILY ENDDATE.

Definition weeklyTenTimes : PatternedRecurrence :=
  mkPatternedRecurrence
    (Some (mkRecurrencePattern (Some WEEKLY) (Some 2%Z) None None
             (Some ["monday"; "friday"]) None))
    (Some (mkRecurrenceRange (Some NUMBERED) None None (Some 10%Z))).

Definition weeklyOnSunday : PatternedRecurrence :=
  mkPatternedRecurrence
    (Some (mkRecurrencePattern (Some WEEKLY) (Some 2%Z) None None
             (Some ["monday"; "sunday"]) None))
    (Some (mkRecurrenceRange (Some NUMBERED) None None (Some 10%Z))).

(** A site for the list restore: lists are a display name and items,
    items are texts, the restored list is its ID, and posting the item
    "bad" fails; the site counts the calls it served.  A calendar service
    that answers the same calendars whatever the filter. *)
Global Instance countingSite_lists
  : listService nat (option string * list string) string string := {
  listsPost n _ _ _ _ := (S n, Ok "list-1");
  listItemsPost n _ _ item :=
    (S n, if bool_decide (item = "bad") then Some (ErrExternal "rejected") else None)
}.

Definition exampleRestoreListItem :=
  restoreListItem (Info := string * Z) (λ bytes, Ok (Some "Tasks", ["a"; "bad"; "c"]))
    fst snd (λ item, item) Some (λ restored size, (restored, size)).

Global Instance fixedCalendars : calendarService (list string) string := {
  calendarsGet g _ _ := (g, Ok g)
}.

(** * Properties *)

(** Case analysis on the tests of the code, first to last. *)
Ltac branch :=
  match goal with
  | |- context [bool_decide ?Q] =>
      let Hb := fresh "Hb" in
      destruct (bool_decide_reflect Q) as [Hb|Hb];
      try apply dec_stable in Hb
  end.

(** ** Sorting role arrays *)

Section sorting_facts.

Lemma sortStrings_perm (l : list string) : sortStrings l ≡ₚ l.
Proof. apply merge_sort_Permutation. Qed.

Lemma sortStrings_sorted (l : list string) : Sorted String.le (sortStrings l).
Proof. apply (Sorted_merge_sort String.le). Qed.

(** Any sorted arrangement of [l] is the one [sortStrings] computes. *)
Lemma sortStrings_unique (l l' : list string) :
  Sorted String.le l' → l' ≡ₚ l → sortStrings l = l'.
Proof.
  intros Hs Hp. apply (Sorted_unique String.le); [apply sortStrings_sorted|done|].
  by rewrite sortStrings_perm, Hp.
Qed.

Lemma sortStrings_eq_iff (l1 l2 : list string) :
  sortStrings l1 = sortStrings l2 ↔ l1 ≡ₚ l2.
Proof.
  split.
  - intros Heq. by rewrite <-(sortStrings_perm l1), Heq, sortStrings_perm.
  - intros Hp. apply sortStrings_unique; [apply sortStrings_sorted|].
    by rewrite sortStrings_perm.
Qed.

Lemma sortStrings_idem (l : list string) :
  sortStrings (sortStrings l) = sortStrings l.
Proof. apply sortStrings_eq_iff, sortStrings_perm. Qed.

Lemma deref_slices_Sort (h : Heap) (l l' : loc) :
  deref (slices_Sort l h) l' =
  if decide (l = l') then sortStrings (deref h l') else deref h l'.
Proof.
  unfold deref, slices_Sort. rewrite lookup_total_alter.
  destruct (decide (l = l')) as [->|]; [|done].
  rewrite lookup_total_alt. by destruct (h !! l').
Qed.

Lemma sortedFrom_refl (h : Heap) : sortedFrom h h.
Proof. intros l. by left. Qed.

Lemma sortedFrom_trans (h1 h2 h3 : Heap) :
  sortedFrom h1 h2 → sortedFrom h2 h3 → sortedFrom h1 h3.
Proof.
  intros H12 H23 l. destruct (H12 l) as [E1|E1], (H23 l) as [E2|E2];
    rewrite E2, E1, ?sortStrings_idem; auto.
Qed.

Lemma sortedFrom_slices_Sort (h : Heap) (l : loc) : sortedFrom h (slices_Sort l h).
Proof. intros l'. rewrite deref_slices_Sort. destruct (decide (l = l')); auto. Qed.

Lemma sortedFrom_sorted (h h' : Heap) (l : loc) :
  sortedFrom h h' → sortStrings (deref h' l) = sortStrings (deref h l).
Proof. intros Hs. destruct (Hs l) as [->| ->]; by rewrite ?sortStrings_idem. Qed.

End sorting_facts.

(** ** [Permission.Equals] *)

Section Equals_facts.
Implicit Types (h : Heap) (p other : Permission).

(** The verdict of [Equals]: the identifier checks of the receiver, and
    the two role arrays equal once sorted. *)
Lemma Equals_verdict h p other :
  (Equals p other h).1 = true ↔
    (EntityID p = "" ∨ EntityID p = EntityID other) ∧
    (Email p = "" ∨ Email p = Email other) ∧
    sortStrings (rolesOf h p) = sortStrings (rolesOf h other).
Proof.
  unfold Equals, rolesOf, slices_Equal.
  do 4 branch; simpl; try (split; [done | intuition congruence]);
    rewrite bool_decide_eq_true, !deref_slices_Sort;
    repeat destruct (decide _); rewrite ?sortStrings_idem;
    intuition congruence.
Qed.

(** What [Equals] leaves behind: the same arrays, some of them sorted. *)
Lemma Equals_heap h p other : sortedFrom h (Equals p other h).2.
Proof.
  unfold Equals. repeat case_match; simpl; try apply sortedFrom_refl.
  eapply sortedFrom_trans; apply sortedFrom_slices_Sort.
Qed.

(** Sorting arrays does not change a verdict. *)
Lemma Equals_sortedFrom h h' p other :
  sortedFrom h h' → (Equals p other h').1 = (Equals p other h).1.
Proof.
  intros Hs. apply eq_true_iff_eq. rewrite !Equals_verdict. unfold rolesOf.
  by rewrite !(sortedFrom_sorted h h').
Qed.

Lemma Equals_refl h p : (Equals p p h).1 = true.
Proof. apply Equals_verdict. auto. Qed.

End Equals_facts.

(** ** [DiffPermissions] *)

Section DiffPermissions_facts.
Implicit Types (h : Heap) (cp pp : Permission) (before after : list Permission).

Lemma noMatchInBefore_sortedFrom h h' before cp :
  sortedFrom h h' → noMatchInBefore h' before cp ↔ noMatchInBefore h before cp.
Proof.
  intros Hs. unfold noMatchInBefore.
  apply Forall_iff. intros pp. by rewrite (Equals_sortedFrom h h').
Qed.

Lemma noMatchInAfter_sortedFrom h h' after pp :
  sortedFrom h h' → noMatchInAfter h' after pp ↔ noMatchInAfter h after pp.
Proof.
  intros Hs. unfold noMatchInAfter.
  apply Forall_iff. intros cp. by rewrite (Equals_sortedFrom h h').
Qed.

(** The inner loops answer whether a match exists, and only sort arrays. *)
Lemma foundInBefore_spec cp before h :
  ((foundInBefore cp before h).1 = false ↔ noMatchInBefore h before cp) ∧
  sortedFrom h (foundInBefore cp before h).2.
Proof.
  revert h. induction before as [|pp before IH]; intros h; simpl.
  - split; [|apply sortedFrom_refl]. split; [constructor|done].
  - pose proof (Equals_heap h cp pp) as Hh.
    destruct (Equals cp pp h) as [eq h'] eqn:E; simpl in Hh.
    assert ((Equals cp pp h).1 = eq) as Heq by (by rewrite E).
    destruct eq; simpl.
    + split; [|done]. split; [done|]. intros Hno.
      apply Forall_cons in Hno as [Hno _]. congruence.
    + destruct (IH h') as [IH1 IH2]. split.
      * rewrite IH1, (noMatchInBefore_sortedFrom h h') by done.
        unfold noMatchInBefore. rewrite Forall_cons. tauto.
      * by eapply sortedFrom_trans.
Qed.

Lemma foundInAfter_spec pp after h :
  ((foundInAfter pp after h).1 = false ↔ noMatchInAfter h after pp) ∧
  sortedFrom h (foundInAfter pp after h).2.
Proof.
  revert h. induction after as [|cp after IH]; intros h; simpl.
  - split; [|apply sortedFrom_refl]. split; [constructor|done].
  - pose proof (Equals_heap h cp pp) as Hh.
    destruct (Equals cp pp h) as [eq h'] eqn:E; simpl in Hh.
    assert ((Equals cp pp h).1 = eq) as Heq by (by rewrite E).
    destruct eq; simpl.
    + split; [|done]. split; [done|]. intros Hno.
      apply Forall_cons in Hno as [Hno _]. congruence.
    + destruct (IH h') as [IH1 IH2]. split.
      * rewrite IH1, (noMatchInAfter_sortedFrom h h') by done.
        unfold noMatchInAfter. rewrite Forall_cons. tauto.
      * by eapply sortedFrom_trans.
Qed.

(** The outer loops filter their source, in its order. *)
Lemma addedLoop_spec after before added h :
  (addedLoop after before added h).1 =
    added ++ filter (noMatchInBefore h before) after ∧
  sortedFrom h (addedLoop after before added h).2.
Proof.
  revert added h. induction after as [|cp after IH]; intros added h; simpl.
  - rewrite filter_nil, app_nil_r. split; [done|apply sortedFrom_refl].
  - destruct (foundInBefore_spec cp before h) as [Hf Hh].
    destruct (foundInBefore cp before h) as [found h']; simpl in *.
    destruct (IH (if found then added else added ++ [cp]) h') as [IH1 IH2].
    split; [|by eapply sortedFrom_trans].
    rewrite IH1, filter_cons.
    rewrite (list_filter_iff _ (noMatchInBefore h before))
      by (intros x; by apply noMatchInBefore_sortedFrom).
    destruct found.
    + rewrite decide_False; [done|]. rewrite <-Hf. done.
    + rewrite decide_True by (by apply Hf). by rewrite <-app_assoc.
Qed.

Lemma removedLoop_spec before after removed h :
  (removedLoop before after removed h).1 =
    removed ++ filter (noMatchInAfter h after) before ∧
  sortedFrom h (removedLoop before after removed h).2.
Proof.
  revert removed h. induction before as [|pp before IH]; intros removed h; simpl.
  - rewrite filter_nil, app_nil_r. split; [done|apply sortedFrom_refl].
  - destruct (foundInAfter_spec pp after h) as [Hf Hh].
    destruct (foundInAfter pp after h) as [found h']; simpl in *.
    destruct (IH (if found then removed else removed ++ [pp]) h') as [IH1 IH2].
    split; [|by eapply sortedFrom_trans].
    rewrite IH1, filter_cons.
    rewrite (list_filter_iff _ (noMatchInAfter h after))
      by (intros x; by apply noMatchInAfter_sortedFrom).
    destruct found.
    + rewrite decide_False; [done|]. rewrite <-Hf. done.
    + rewrite decide_True by (by apply Hf). by rewrite <-app_assoc.
Qed.

(** [DiffPermissions] as two filters, and the heap it leaves. *)
Lemma DiffPermissions_filters before after h :
  (DiffPermissions before after h).1 =
    (filter (noMatchInBefore h before) after,
     filter (noMatchInAfter h after) before) ∧
  sortedFrom h (DiffPermissions before after h).2.
Proof.
  unfold DiffPermissions.
  destruct (addedLoop_spec after before [] h) as [Ha Hh1].
  destruct (addedLoop after before [] h) as [added h1]; simpl in *.
  destruct (removedLoop_spec before after [] h1) as [Hr Hh2].
  destruct (removedLoop before after [] h1) as [removed h2]; simpl in *.
  split; [|by eapply sortedFrom_trans].
  rewrite Ha, Hr. f_equal.
  apply list_filter_iff. intros x. by apply noMatchInAfter_sortedFrom.
Qed.

End DiffPermissions_facts.

(** ** The permission model: claims *)

(** C1, as the code has it: for all sequences [before] and [after],
    [DiffPermissions] answers [(added, removed)] such that, with the element
    of [after] as the receiver of [Equals] throughout, [after] and
    [(before minus removed)] together with [added] cover each other, and no
    element of [added] equals an element of [removed].  The verdicts are
    the same in the heap before and after the call. *)
Theorem DiffPermissions_partition (before after : list Permission) (h : Heap) :
  let added := (DiffPermissions before after h).1.1 in
  let removed := (DiffPermissions before after h).1.2 in
  let kept := list_difference before removed in
  (∀ cp, cp ∈ after → ∃ q, q ∈ kept ++ added ∧ (Equals cp q h).1 = true) ∧
  (∀ q, q ∈ kept ++ added → ∃ cp, cp ∈ after ∧ (Equals cp q h).1 = true) ∧
  (∀ a r, a ∈ added → r ∈ removed → (Equals a r h).1 = false) ∧
  (∀ p q, (Equals p q (DiffPermissions before after h).2).1 = (Equals p q h).1).
Proof.
  destruct (DiffPermissions_filters before after h) as [Hd Hh].
  rewrite Hd. simpl. repeat split.
  - intros cp Hcp.
    destruct (decide (noMatchInBefore h before cp)) as [Hno|Hyes].
    + exists cp. split; [|apply Equals_refl].
      apply elem_of_app. right. by apply list_elem_of_filter.
    + apply not_Forall_Exists in Hyes; [|intros x; apply _].
      apply Exists_exists in Hyes as (pp & Hpp & Heq). simpl in Heq.
      apply not_false_is_true in Heq.
      exists pp. split; [|done]. apply elem_of_app. left.
      apply list_elem_of_difference. split; [done|].
      intros [Hno _]%list_elem_of_filter.
      unfold noMatchInAfter in Hno. rewrite Forall_forall in Hno.
      specialize (Hno cp Hcp). congruence.
  - intros q [Hq|Hq]%elem_of_app.
    + apply list_elem_of_difference in Hq as [Hq Hkept].
      destruct (decide (noMatchInAfter h after q)) as [Hno|Hyes].
      * exfalso. apply Hkept. by apply list_elem_of_filter.
      * apply not_Forall_Exists in Hyes; [|intros x; apply _].
        apply Exists_exists in Hyes as (cp & Hcp & Heq). simpl in Heq.
        apply not_false_is_true in Heq. by exists cp.
    + apply list_elem_of_filter in Hq as [_ Hq].
      exists q. split; [done|apply Equals_refl].
  - intros a r [Hno _]%list_elem_of_filter [_ Hr]%list_elem_of_filter.
    unfold noMatchInBefore in Hno. rewrite Forall_forall in Hno. by apply Hno.
  - intros p q. by apply Equals_sortedFrom.
Qed.

(** C1, as stated, fails: [Equals] is not symmetric, and the partition
    holds with the element of [after] as the receiver only.  A legacy grant
    replaced by the current one is both removed and added although the
    removed one equals the added one; the current grant replaced by the
    legacy one is kept although it does not equal the one in [after]; and so
    no symmetric reading of the equivalence makes the partition hold at both
    inputs. *)
Lemma DiffPermissions_no_symmetric_partition :
  ((DiffPermissions [legacyGrant] [currentGrant] exampleHeap).1
     = ([currentGrant], [legacyGrant]) ∧
   (Equals legacyGrant currentGrant exampleHeap).1 = true) ∧
  ((DiffPermissions [currentGrant] [legacyGrant] exampleHeap).1 = ([], []) ∧
   (Equals currentGrant legacyGrant exampleHeap).1 = false) ∧
  (∀ eqv : Permission → Permission → Prop,
     (∀ a b, eqv a b → eqv b a) →
     ¬ (partitionUpTo eqv [legacyGrant] [currentGrant] exampleHeap ∧
        partitionUpTo eqv [currentGrant] [legacyGrant] exampleHeap)).
Proof.
  assert ((DiffPermissions [legacyGrant] [currentGrant] exampleHeap).1
            = ([currentGrant], [legacyGrant])) as Hfwd by (by vm_compute).
  assert ((DiffPermissions [currentGrant] [legacyGrant] exampleHeap).1 = ([], []))
    as Hbwd by (by vm_compute).
  split; [split; [exact Hfwd|by vm_compute]|].
  split; [split; [exact Hbwd|by vm_compute]|].
  intros eqv Hsym [(_ & _ & Hdisjoint) (Hcover & _)].
  rewrite Hfwd in Hdisjoint. rewrite Hbwd in Hcover. simpl in Hdisjoint, Hcover.
  destruct (Hcover legacyGrant) as (q & Hq & Heqv); [apply list_elem_of_here|].
  apply list_elem_of_singleton in Hq as ->.
  apply (Hdisjoint currentGrant legacyGrant);
    [apply list_elem_of_here|apply list_elem_of_here|by apply Hsym].
Qed.

(** C2, as the code has it: [Equals] gives the same verdict in both
    directions for two permissions that leave the same identifier fields
    empty. *)
Theorem Equals_symmetric_same_shape (a b : Permission) (h : Heap) :
  (EntityID a = "" ↔ EntityID b = "") →
  (Email a = "" ↔ Email b = "") →
  (Equals a b h).1 = (Equals b a h).1.
Proof.
  intros He Hm. apply eq_true_iff_eq. rewrite !Equals_verdict.
  intuition congruence.
Qed.

Lemma Equals_symmetric_same_shape_witness :
  ((EntityID doubledGrant = "" ↔ EntityID singleGrant = "") ∧
   (Email doubledGrant = "" ↔ Email singleGrant = "")) ∧
  (Equals doubledGrant singleGrant exampleHeap).1 =
  (Equals singleGrant doubledGrant exampleHeap).1.
Proof.
  assert (EntityID doubledGrant = "" ↔ EntityID singleGrant = "") as He
    by (split; discriminate).
  assert (Email doubledGrant = "" ↔ Email singleGrant = "") as Hm
    by (split; reflexivity).
  split; [split; assumption|].
  exact (Equals_symmetric_same_shape doubledGrant singleGrant exampleHeap He Hm).
Defined.

(** C2, as stated, fails: a receiver known by e-mail only matches the
    grant that also carries an entity ID, and not the other way round. *)
Lemma Equals_not_symmetric :
  (Equals legacyGrant currentGrant exampleHeap).1 = true ∧
  (Equals currentGrant legacyGrant exampleHeap).1 = false.
Proof. split; vm_compute; reflexivity. Qed.

(** C3, as the code has it: [Equals] answers true exactly when each
    identifier field of the receiver is empty or equal to the argument's,
    and the two role arrays are permutations of each other. *)
Theorem Equals_true_iff (p other : Permission) (h : Heap) :
  (Equals p other h).1 = true ↔
    (EntityID p = "" ∨ EntityID p = EntityID other) ∧
    (Email p = "" ∨ Email p = Email other) ∧
    rolesOf h p ≡ₚ rolesOf h other.
Proof. rewrite Equals_verdict. by rewrite sortStrings_eq_iff. Qed.

(** C3, as stated, fails in each of its three parts: an identifier empty
    on the argument's side only is not ignored; a receiver with both
    identifiers empty matches on roles alone; and role arrays equal as sets
    but not as multisets do not match. *)
Lemma Equals_differs_from_EqualsSpec :
  (EqualsSpec exampleHeap currentGrant legacyGrant ∧
   (Equals currentGrant legacyGrant exampleHeap).1 = false) ∧
  (bothIdentifiersEmpty anonymousGrant ∧
   (Equals anonymousGrant otherGrant exampleHeap).1 = true) ∧
  (EqualsSpec exampleHeap doubledGrant singleGrant ∧
   (Equals doubledGrant singleGrant exampleHeap).1 = false).
Proof.
  assert (∀ a b : Permission, ∀ la lb : list string,
            rolesOf exampleHeap a = la → rolesOf exampleHeap b = lb →
            (∀ r, r ∈ la ↔ r ∈ lb) →
            ∀ r, r ∈ rolesOf exampleHeap a ↔ r ∈ rolesOf exampleHeap b) as Hroles
    by (intros a b la lb -> ->; done).
  split; [|split].
  - split; [|by vm_compute].
    repeat split; try (intros [? ?]; discriminate).
    + right; by left.
    + right; by right.
    + eapply Hroles; [by vm_compute..|]; intros r'.
      rewrite !elem_of_cons, !elem_of_nil; tauto.
    + eapply Hroles; [by vm_compute..|]; intros r'.
      rewrite !elem_of_cons, !elem_of_nil; tauto.
  - split; [by split|by vm_compute].
  - split; [|by vm_compute].
    repeat split; try (intros [? ?]; discriminate).
    + by right; right.
    + by left.
    + eapply Hroles; [by vm_compute..|]; intros r'.
      rewrite !elem_of_cons, !elem_of_nil; tauto.
    + eapply Hroles; [by vm_compute..|]; intros r'.
      rewrite !elem_of_cons, !elem_of_nil; tauto.
Qed.

(** C4: [added] is exactly the elements of [after] with no [Equals] match
    in [before], [removed] exactly the elements of [before] with no match
    in [after], each in the order of its source; the headers handed back
    are those of the arguments, and the matches are the same whether judged
    in the heap before or after the call. *)
Theorem DiffPermissions_added_removed (before after : list Permission) (h : Heap) :
  let added := (DiffPermissions before after h).1.1 in
  let removed := (DiffPermissions before after h).1.2 in
  added = filter (noMatchInBefore h before) after ∧
  removed = filter (noMatchInAfter h after) before ∧
  added `sublist_of` after ∧
  removed `sublist_of` before ∧
  (∀ p q, (Equals p q (DiffPermissions before after h).2).1 = (Equals p q h).1).
Proof.
  destruct (DiffPermissions_filters before after h) as [Hd Hh].
  rewrite Hd. simpl. repeat split; try apply sublist_filter.
  intros p q. by apply Equals_sortedFrom.
Qed.

(** ** The parent permission resolver *)

Section computeParentPermissions_facts.
Context {P : Type} `{Path P}.
Implicit Types (metas : gmap string Metadata).

(** One iteration of the loop. *)
Lemma computeParentPermissions_iteration (parent : P) metas :
  computeParentPermissions parent metas =
  match Dir parent with
  | Fail _ => Fail (ErrNew "getting parent")
  | Ok parent' =>
      match ToDrivePath parent' with
      | Fail _ => Fail (ErrNew "transforming dir to drivePath")
      | Ok drivePath =>
          if bool_decide (length (DPFolders drivePath) = 0)
          then Ok emptyMetadata
          else
            match metas !! PString parent' with
            | None =>
                Fail (ErrNew ("no metadata found for parent folder: "
                              +:+ PString parent'))
            | Some meta =>
                if bool_decide (MSharingMode meta = SharingModeCustom)
                then Ok meta
                else computeParentPermissions parent' metas
            end
      end
  end.
Proof.
  funelim (computeParentPermissions parent metas);
    match goal with Hd : Dir _ = _ |- _ => by rewrite Hd end.
Qed.

(** The walk passes over ancestors that are cached, below the root and not
    custom. *)
Lemma computeParentPermissions_pass (p a : P) (dp : DrivePath) (m : Metadata) metas :
  Dir p = Ok a → ToDrivePath a = Ok dp → DPFolders dp ≠ [] →
  metas !! PString a = Some m → MSharingMode m ≠ SharingModeCustom →
  computeParentPermissions p metas = computeParentPermissions a metas.
Proof.
  intros Hd Ht Hf Hm Hc.
  rewrite (computeParentPermissions_iteration p), Hd, Ht, Hm.
  rewrite bool_decide_false by (by destruct (DPFolders dp)).
  by rewrite bool_decide_false.
Qed.

(** C5: when the upward walk from the item reaches the ancestor [a]
    (everything passed on the way being cached, below the root and not
    custom), the resolver answers empty metadata and no error if [a] is the
    hierarchy root, the metadata of [a] if [a] is below the root and has
    custom sharing, the nearest such ancestor, and a "no metadata found"
    error if [a] is below the root and absent from the cache. *)
Theorem computeParentPermissions_walk (origin a : P) (dp : DrivePath) metas :
  walksTo metas origin a →
  ToDrivePath a = Ok dp →
  (DPFolders dp = [] →
     computeParentPermissions origin metas = Ok emptyMetadata) ∧
  (DPFolders dp ≠ [] → ∀ m, metas !! PString a = Some m →
     MSharingMode m = SharingModeCustom →
     computeParentPermissions origin metas = Ok m) ∧
  (DPFolders dp ≠ [] → metas !! PString a = None →
     computeParentPermissions origin metas =
       Fail (ErrNew ("no metadata found for parent folder: " +:+ PString a))).
Proof.
  intros Hw Ht. induction Hw as [p a Hd|p a b dp' m Hd Ht' Hf Hm Hc Hw IH].
  - rewrite (computeParentPermissions_iteration p), Hd, Ht.
    split; [|split].
    + intros ->. done.
    + intros Hf m Hm Hc. rewrite bool_decide_false by (by destruct (DPFolders dp)).
      rewrite Hm. by rewrite bool_decide_true.
    + intros Hf Hm. rewrite bool_decide_false by (by destruct (DPFolders dp)).
      by rewrite Hm.
  - rewrite (computeParentPermissions_pass p a dp' m) by done. by apply IH.
Qed.

End computeParentPermissions_facts.

Lemma computeParentPermissions_walk_witness :
  (walksTo cacheAllInherited exampleItemPath driveRoot ∧
   computeParentPermissions exampleItemPath cacheAllInherited = Ok emptyMetadata) ∧
  (walksTo cacheCustomA exampleItemPath folderA ∧
   computeParentPermissions exampleItemPath cacheCustomA = Ok customMeta) ∧
  (walksTo cacheWithoutA exampleItemPath folderA ∧
   computeParentPermissions exampleItemPath cacheWithoutA =
     Fail (ErrNew ("no metadata found for parent folder: " +:+ PString folderA))).
Proof.
  assert (walksTo cacheAllInherited exampleItemPath driveRoot) as Hroot.
  { apply (walksTo_further _ _ folderB _ (mkDrivePath "d1" "root:" ["a"; "b"]) inheritedMeta);
      try first [reflexivity|discriminate].
    apply (walksTo_further _ _ folderA _ (mkDrivePath "d1" "root:" ["a"]) inheritedMeta);
      try first [reflexivity|discriminate].
    apply walksTo_parent. reflexivity. }
  assert (walksTo cacheCustomA exampleItemPath folderA) as Hcustom.
  { apply (walksTo_further _ _ folderB _ (mkDrivePath "d1" "root:" ["a"; "b"]) inheritedMeta);
      try first [reflexivity|discriminate].
    apply walksTo_parent. reflexivity. }
  assert (walksTo cacheWithoutA exampleItemPath folderA) as Hgap.
  { apply (walksTo_further _ _ folderB _ (mkDrivePath "d1" "root:" ["a"; "b"]) inheritedMeta);
      try first [reflexivity|discriminate].
    apply walksTo_parent. reflexivity. }
  split; [|split]; (split; [assumption|]).
  - exact (proj1 (computeParentPermissions_walk exampleItemPath driveRoot
             (mkDrivePath "d1" "root:" []) cacheAllInherited Hroot eq_refl) eq_refl).
  - refine (proj1 (proj2 (computeParentPermissions_walk exampleItemPath folderA
             (mkDrivePath "d1" "root:" ["a"]) cacheCustomA Hcustom eq_refl))
             _ customMeta eq_refl eq_refl).
    discriminate.
  - refine (proj2 (proj2 (computeParentPermissions_walk exampleItemPath folderA
             (mkDrivePath "d1" "root:" ["a"]) cacheWithoutA Hgap eq_refl))
             _ eq_refl).
    discriminate.
Defined.

(** ** [UpdatePermissions] *)

Section UpdatePermissions_facts.
Context {R : Type} `{updateDeleteItemPermissioner R}.
Variable Time_String : Time → string.
Implicit Types (w : World R) (ids : gmap string string) (p : Permission).

(** The first loop only deletes; when it runs to its end it has deleted
    every removed permission, in order. *)
Lemma removeLoop_calls (d i : string) (removed : list Permission) ids w :
  heap (removeLoop d i removed ids w).2 = heap w ∧
  ∃ ds, calls (removeLoop d i removed ids w).2 = calls w ++ ds ∧
        Forall (λ c, isDelete c = true) ds ∧
        ((removeLoop d i removed ids w).1 = None →
         Forall2 (λ p c, deleteCallFor d i ids p = Some c) removed ds).
Proof.
  revert w. induction removed as [|p removed IH]; intros w; simpl.
  - split; [done|]. exists []. rewrite app_nil_r. by repeat split.
  - unfold deleteCallFor at 1. destruct (ids !! ID p) as [pid|] eqn:Hid; simpl.
    + destruct (DeleteItemPermission (remote w) d i pid) as [r [e|]] eqn:Hdel; simpl.
      * split; [done|]. exists [CallDelete d i pid].
        split; [done|]. split; [by repeat constructor|done].
      * destruct (IH (mkWorld (heap w) r (calls w ++ [CallDelete d i pid])))
          as (Hh & ds & Hc & Hds & Hall).
        split; [done|]. exists (CallDelete d i pid :: ds). simpl in Hc.
        split; [by rewrite Hc, <-app_assoc|].
        split; [by constructor|].
        intros Hnone. constructor; [|by apply Hall].
        unfold deleteCallFor. by rewrite Hid.
    + split; [done|]. exists []. rewrite app_nil_r. by repeat split.
Qed.

(** The test that skips an added permission. *)
Lemma skip_test_restorable (h : Heap) p :
  bool_decide (length (nonOwnerRoles h p) = 0)
    || bool_decide (EntityType p = GV2SiteGroup) = false ↔ restorable h p.
Proof.
  unfold restorable. rewrite orb_false_iff, !bool_decide_eq_false.
  destruct (nonOwnerRoles h p); simpl; intuition (congruence || lia).
Qed.

(** The second loop only creates, one call for each restorable permission
    it gets to, in order, and writes the ID map under their IDs only. *)
Lemma addLoop_calls (d i : string) (added : list Permission) ids w :
  heap (addLoop Time_String d i added ids w).2 = heap w ∧
  ∃ cs, calls (addLoop Time_String d i added ids w).2 = calls w ++ cs ∧
        cs `prefix_of`
          map (createCallFor Time_String d i (heap w)) (filter (restorable (heap w)) added) ∧
        ((addLoop Time_String d i added ids w).1.1 = Returns None →
         cs = map (createCallFor Time_String d i (heap w))
                (filter (restorable (heap w)) added)) ∧
        (∀ k, (∀ p, p ∈ added → restorable (heap w) p → ID p ≠ k) →
              (addLoop Time_String d i added ids w).1.2 !! k = ids !! k).
Proof.
  revert ids w. induction added as [|p added IH]; intros ids w; simpl.
  - split; [done|]. exists []. rewrite app_nil_r. by repeat split.
  - rewrite filter_cons.
    destruct (bool_decide (length (nonOwnerRoles (heap w) p) = 0)
                || bool_decide (EntityType p = GV2SiteGroup)) eqn:Hskip.
    + assert (¬ restorable (heap w) p) as Hnr
        by (rewrite <-skip_test_restorable; congruence).
      rewrite decide_False by done.
      destruct (IH ids w) as (Hh & cs & Hc & Hpre & Hall & Hids).
      split; [done|]. exists cs. repeat split; try done.
      intros k Hk. apply Hids. intros q Hq. apply Hk. by right.
    + assert (restorable (heap w) p) as Hr by (by apply skip_test_restorable).
      rewrite decide_True by done. simpl.
      destruct (PostItemPermissionUpdate (remote w) d i
                  (inviteBody Time_String p (nonOwnerRoles (heap w) p)))
        as [r [[|newID value]|err]] eqn:Hpost; simpl;
        change (CallPost d i (inviteBody Time_String p (nonOwnerRoles (heap w) p)))
          with (createCallFor Time_String d i (heap w) p).
      * split; [done|]. exists [createCallFor Time_String d i (heap w) p].
        repeat split; try done. by apply prefix_cons, prefix_nil.
      * destruct (IH (<[ID p := default "" newID]> ids)
                    (mkWorld (heap w) r
                       (calls w ++ [createCallFor Time_String d i (heap w) p])))
          as (Hh & cs & Hc & Hpre & Hall & Hids).
        simpl in *. split; [done|].
        exists (createCallFor Time_String d i (heap w) p :: cs).
        split; [by rewrite Hc, <-app_assoc|].
        split; [by apply prefix_cons|].
        split; [intros Hn; by rewrite Hall|].
        intros k Hk. rewrite Hids.
        -- apply lookup_insert_ne. apply Hk; [by left|done].
        -- intros q Hq. apply Hk. by right.
      * split; [done|]. exists [createCallFor Time_String d i (heap w) p].
        repeat split; try done. by apply prefix_cons, prefix_nil.
Qed.

(** Permissions that are not restorable are passed over as if absent. *)
Lemma addLoop_skips (d i : string) (added : list Permission) ids w :
  addLoop Time_String d i added ids w =
  addLoop Time_String d i (filter (restorable (heap w)) added) ids w.
Proof.
  revert ids w. induction added as [|p added IH]; intros ids w; [done|].
  rewrite filter_cons. simpl.
  destruct (bool_decide (length (nonOwnerRoles (heap w) p) = 0)
              || bool_decide (EntityType p = GV2SiteGroup)) eqn:Hskip.
  - assert (¬ restorable (heap w) p) as Hnr
      by (rewrite <-skip_test_restorable; congruence).
    rewrite decide_False by done. apply IH.
  - assert (restorable (heap w) p) as Hr by (by apply skip_test_restorable).
    rewrite decide_True by done. simpl. rewrite Hskip.
    destruct (PostItemPermissionUpdate (remote w) d i
                (inviteBody Time_String p (nonOwnerRoles (heap w) p)))
      as [r [[|newID value]|err]]; try done.
    by rewrite IH.
Qed.

End UpdatePermissions_facts.

(** ** [UpdatePermissions] and [RestorePermissions]: claims *)

Section permission_claims.
Context {P : Type} `{Path P} {R : Type} `{updateDeleteItemPermissioner R}.
Variable Time_String : Time → string.
Implicit Types (w : World R) (ids : gmap string string) (p : Permission).

(** C7: the calls [UpdatePermissions] emits are deletes followed by
    creates, and once a create is emitted every removed permission has had
    its delete: no create precedes a delete. *)
Theorem UpdatePermissions_deletes_before_creates (d i : string)
    (added removed : list Permission) ids w :
  ∃ ds cs,
    calls (UpdatePermissions Time_String d i added removed ids w).2
      = calls w ++ ds ++ cs ∧
    Forall (λ c, isDelete c = true) ds ∧
    Forall (λ c, isPost c = true) cs ∧
    (cs ≠ [] → Forall2 (λ p c, deleteCallFor d i ids p = Some c) removed ds).
Proof.
  unfold UpdatePermissions.
  destruct (removeLoop_calls d i removed ids w) as (Hh & ds & Hc & Hds & Hall).
  destruct (removeLoop d i removed ids w) as [[err|] w'] eqn:Hrem; simpl in *.
  - exists ds, []. rewrite app_nil_r. by repeat split.
  - destruct (addLoop_calls Time_String d i added ids w')
      as (_ & cs & Hc' & [k Hpre] & _).
    exists ds, cs. split; [by rewrite Hc', Hc, <-app_assoc|].
    split; [done|]. split; [|intros _; by apply Hall].
    assert (Forall (λ c, isPost c = true) (cs ++ k)) as Hposts.
    { rewrite <-Hpre. apply Forall_forall. intros c Hin.
      apply list_elem_of_fmap in Hin as (q & -> & _). done. }
    by apply Forall_app in Hposts as [? _].
Qed.

(** C8: for an item whose own metadata says "inherited",
    [RestorePermissions] returns nil and leaves the world as it found it,
    with no call added to the log, whatever the parent-metadata cache and
    the ID map hold; the caches are handed back untouched. *)
Theorem RestorePermissions_inherited (d i : string) (itemPath : P)
    (current : Metadata) (caches : restoreCaches) w :
  MSharingMode current = SharingModeInherited →
  RestorePermissions Time_String d i itemPath current caches w
    = (Returns None, caches, w).
Proof.
  intros Hin. unfold RestorePermissions. by rewrite bool_decide_true.
Qed.


End permission_claims.

Lemma RestorePermissions_inherited_witness :
  MSharingMode inheritedItemMeta = SharingModeInherited ∧
  RestorePermissions exampleTimeString "d1" "item-1" exampleItemPath
    inheritedItemMeta exampleCaches exampleWorld
    = (Returns None, exampleCaches, exampleWorld).
Proof.
  split; [reflexivity|].
  exact (RestorePermissions_inherited exampleTimeString "d1" "item-1"
           exampleItemPath inheritedItemMeta exampleCaches exampleWorld eq_refl).
Defined.


(** ** [getCollectionMetadata] *)

Section getCollectionMetadata_facts.
Context {P : Type} `{Path P} {C : Type}.
Variables (V4 V5 : Z) (suffix : string).
Variable FullPath : C → P.
Variable fetch : C → string → res Metadata.

(** C9, as the code has it: no permission restore, a version before the
    data-and-meta-files one, or the root folder give empty metadata and no
    error; below the directory-includes-permissions version the metadata is
    the entry cached under the collection's own full path, and empty
    metadata when there is none and that path is a drive root; from that
    version on it is the record the collection stores under "last folder
    name + suffix" before the no-name version and under the suffix alone
    from it onward, a failing read being wrapped. *)
Theorem getCollectionMetadata_gated (drivePath : DrivePath) (dc : C)
    (caches : restoreCaches) (v : Z) (restorePerms : bool) :
  let run := getCollectionMetadata V4 V5 suffix FullPath fetch
               drivePath dc caches v restorePerms in
  (restorePerms = false ∨ (v < OneDrive1DataAndMetaFiles)%Z ∨ DPFolders drivePath = [] →
     run = Returns (Ok emptyMetadata)) ∧
  (restorePerms = true → (OneDrive1DataAndMetaFiles ≤ v)%Z →
   DPFolders drivePath ≠ [] → (v < V4)%Z →
     (∀ m, ParentDirToMeta caches !! PString (FullPath dc) = Some m →
           run = Returns (Ok m)) ∧
     (∀ dp, ParentDirToMeta caches !! PString (FullPath dc) = None →
            ToDrivePath (FullPath dc) = Ok dp → DPFolders dp = [] →
            run = Returns (Ok emptyMetadata))) ∧
  (restorePerms = true → (OneDrive1DataAndMetaFiles ≤ v)%Z →
   DPFolders drivePath ≠ [] → (V4 ≤ v)%Z →
     ∀ fs lastFolder, Folders (FullPath dc) = fs ++ [lastFolder] →
       run = Returns
               match fetch dc (if bool_decide (v < V5)%Z
                               then lastFolder +:+ suffix else suffix) with
               | Ok meta => Ok meta
               | Fail err => Fail (ErrWrap err "collection metadata")
               end).
Proof.
  unfold getCollectionMetadata. split; [|split].
  - intros [->|[Hv|Hroot]]; [done| |].
    + rewrite (bool_decide_true (v < _)%Z) by done. by rewrite orb_true_r.
    + rewrite Hroot. simpl. by destruct (negb restorePerms || _).
  - intros -> Hv1 Hroot Hv4. simpl.
    rewrite (bool_decide_false (v < OneDrive1DataAndMetaFiles)%Z) by lia.
    rewrite bool_decide_false by (by destruct (DPFolders drivePath)).
    rewrite (bool_decide_true (v < V4)%Z) by done.
    unfold getParentMetadata. split.
    + intros m ->. done.
    + intros dp -> -> Hdp. by rewrite Hdp.
  - intros -> Hv1 Hroot Hv4 fs lastFolder Hfs. simpl.
    rewrite (bool_decide_false (v < OneDrive1DataAndMetaFiles)%Z) by lia.
    rewrite bool_decide_false by (by destruct (DPFolders drivePath)).
    rewrite (bool_decide_false (v < V4)%Z) by lia.
    rewrite Hfs, last_snoc.
    destruct (decide (v < V5)%Z).
    + rewrite (bool_decide_false (v >= V5)%Z) by lia.
      rewrite (bool_decide_true (v < V5)%Z) by done. by destruct (fetch _ _).
    + rewrite (bool_decide_true (v >= V5)%Z) by lia.
      rewrite (bool_decide_false (v < V5)%Z) by done. by destruct (fetch _ _).
Qed.

End getCollectionMetadata_facts.

Lemma getCollectionMetadata_gated_witness :
  exampleGetCollectionMetadata drivePathB collectionB cacheAandB 0 true
    = Returns (Ok emptyMetadata) ∧
  exampleGetCollectionMetadata drivePathB collectionB cacheAandB 3 true
    = Returns (Ok inheritedMeta) ∧
  exampleGetCollectionMetadata drivePathB collectionB cacheAandB 4 true
    = Returns (Ok customMeta) ∧
  exampleGetCollectionMetadata drivePathB collectionB cacheAandB 5 true
    = Returns (Ok inheritedMeta).
Proof.
  pose proof (getCollectionMetadata_gated 4 5 ".dirmeta" colPath exampleFetch
                drivePathB collectionB cacheAandB) as Hgate.
  split; [|split; [|split]].
  - exact (proj1 (Hgate 0%Z true) (or_intror (or_introl eq_refl))).
  - refine (proj1 (proj1 (proj2 (Hgate 3%Z true)) eq_refl _ _ _) inheritedMeta eq_refl);
      [discriminate|discriminate|reflexivity].
  - refine (proj2 (proj2 (Hgate 4%Z true)) eq_refl _ _ _
              ["drives"; "d1"; "root:"; "a"] "b" eq_refl);
      discriminate.
  - refine (proj2 (proj2 (Hgate 5%Z true)) eq_refl _ _ _
              ["drives"; "d1"; "root:"; "a"] "b" eq_refl);
      discriminate.
Defined.

(** C9, as stated, fails for the versions before the
    directory-includes-permissions one: the code looks up the collection's
    own path and nothing else.  With its own entry and its parent's both
    cached it answers its own; with only the parent's cached it does not
    answer the parent's. *)
Lemma getCollectionMetadata_not_nearest_ancestor :
  (nearestCachedAncestor (colPath collectionB) (ParentDirToMeta cacheAandB)
     = Some customMeta ∧
   exampleGetCollectionMetadata drivePathB collectionB cacheAandB 3 true
     = Returns (Ok inheritedMeta)) ∧
  (nearestCachedAncestor (colPath collectionB) (ParentDirToMeta cacheOnlyA)
     = Some customMeta ∧
   exampleGetCollectionMetadata drivePathB collectionB cacheOnlyA 3 true
     ≠ Returns (Ok customMeta)).
Proof.
  split; split; try reflexivity. discriminate.
Qed.

(** ** The collision table of [restoreContact] *)

Section restoreContact_facts.
Variable Contact : Type.
Variable BytesToContactable : list Byte.byte → res Contact.
Variable ContactCollisionKey : Contact → string.
Variable ContactID : Contact → string.
Variable NewContact : Contact.

(** C6: with the mock of the test, whose calls do not fail, and for every
    collision map and policy: no entry for the key: the item is posted,
    nothing is deleted, no error, under every policy; an entry and Skip:
    the "already exists" conflict, and neither post nor delete; an entry and
    Copy: posted, nothing deleted, no error; an entry and Replace: posted,
    then the cached item deleted, in that order, no error. *)
Theorem restoreContact_collision_table (body : list Byte.byte) (contact : Contact)
    (userID destinationID : string) (collisionMap : gmap string string)
    (policy : CollisionPolicy) :
  BytesToContactable body = Ok contact →
  let key := ContactCollisionKey contact in
  let run :=
    restoreContact Contact BytesToContactable ContactCollisionKey ContactID
      (H := contactRestoreMock_restorer Contact NewContact)
      (mkContactRestoreMock None false None false)
      body userID destinationID collisionMap policy in
  match collisionMap !! key, policy with
  | None, _ =>
      run = (None, <[key := ContactID NewContact]> collisionMap,
             mkContactRestoreMock None true None false,
             [CallPostItem userID destinationID])
  | Some _, Skip =>
      run = (Some ErrItemAlreadyExistsConflict, collisionMap,
             mkContactRestoreMock None false None false, [])
  | Some _, Copy =>
      run = (None, collisionMap,
             mkContactRestoreMock None true None false,
             [CallPostItem userID destinationID])
  | Some existing, Replace =>
      run = (None, collisionMap,
             mkContactRestoreMock None true None true,
             [CallPostItem userID destinationID; CallDeleteItem userID existing])
  end.
Proof.
  intros Hbody. unfold restoreContact. rewrite Hbody.
  destruct (collisionMap !! ContactCollisionKey contact) as [existing|];
    destruct policy; reflexivity.
Qed.

End restoreContact_facts.

Lemma restoreContact_collision_table_witness :
  exampleBytesToContactable exampleBody = Ok exampleBody ∧
  exampleRestoreContact (mkContactRestoreMock None false None false)
    exampleBody "user" "destination" {[ "middlename" := "smarf" ]} Replace
  = (None, {[ "middlename" := "smarf" ]},
     mkContactRestoreMock None true None true,
     [CallPostItem "user" "destination"; CallDeleteItem "user" "smarf"]) ∧
  exampleRestoreContact (mkContactRestoreMock None false None false)
    exampleBody "user" "destination" {[ "middlename" := "smarf" ]} Skip
  = (Some ErrItemAlreadyExistsConflict, {[ "middlename" := "smarf" ]},
     mkContactRestoreMock None false None false, []).
Proof.
  split; [reflexivity|]. split.
  - exact (restoreContact_collision_table (list Byte.byte)
             exampleBytesToContactable exampleCollisionKey exampleContactID []
             exampleBody exampleBody "user" "destination"
             {[ "middlename" := "smarf" ]} Replace eq_refl).
  - exact (restoreContact_collision_table (list Byte.byte)
             exampleBytesToContactable exampleCollisionKey exampleContactID []
             exampleBody exampleBody "user" "destination"
             {[ "middlename" := "smarf" ]} Skip eq_refl).
Defined.

(** ** The two-level scenario, run *)

(** Restoring the item issues exactly one create, for the write grant of
    U2, and no delete; the new ID is recorded under the old one. *)
Example RestorePermissions_two_level_scenario :
  RestorePermissions exampleTimeString "d1" "item-1" scenarioItemPath
    (mkMetadata SharingModeCustom [itemRead; itemWrite]) scenarioCaches
    (mkWorld scenarioHeap (mkObligingRemote 0) [])
  = (Returns None,
     mkRestoreCaches (ParentDirToMeta scenarioCaches) {[ "i2" := "new-0" ]},
     mkWorld scenarioHeap (mkObligingRemote 1)
       [CallPost "d1" "item-1"
          (mkInviteBody ["write"] None (Some false) (Some true)
             [mkDriveRecipient (Some "U2") None])]).
Proof. by vm_compute. Qed.

(** * Further properties *)

(** ** [Permission.Equals] and [DiffPermissions] *)

Section metadata_more.
Implicit Types (h : Heap) (p other a b c : Permission)
               (before after : list Permission).

Lemma dom_slices_Sort (l : loc) h : dom (slices_Sort l h) = dom h.
Proof. unfold slices_Sort. apply dom_alter_L. Qed.

Lemma filter_none {A} (Q : A → Prop) `{∀ x, Decision (Q x)} (l : list A) :
  (∀ x, x ∈ l → ¬ Q x) → filter Q l = [].
Proof.
  induction l as [|x l IH]; intros Hl; [done|].
  rewrite filter_cons, decide_False by (apply Hl; by left).
  apply IH. intros y Hy. apply Hl. by right.
Qed.

(** X1: what [Equals] does to the heap.  It writes no array but the two
    role arrays it compares and creates none; on failing identifier checks
    it writes nothing at all; and when it answers true it has left both
    arrays sorted, hence equal. *)
Theorem Equals_effect p other h :
  (∀ l, l ≠ Roles p → l ≠ Roles other →
        deref (Equals p other h).2 l = deref h l) ∧
  dom (Equals p other h).2 = dom h ∧
  ((EntityID p ≠ "" ∧ EntityID p ≠ EntityID other) ∨
   (Email p ≠ "" ∧ Email p ≠ Email other) →
     Equals p other h = (false, h)) ∧
  ((Equals p other h).1 = true →
     deref (Equals p other h).2 (Roles p) = sortStrings (deref h (Roles p)) ∧
     deref (Equals p other h).2 (Roles other) = sortStrings (deref h (Roles other)) ∧
     deref (Equals p other h).2 (Roles p) = deref (Equals p other h).2 (Roles other)).
Proof.
  split; [|split; [|split]].
  - intros l Hp Ho. unfold Equals. repeat case_match; simpl; try done.
    rewrite !deref_slices_Sort. by rewrite !decide_False.
  - unfold Equals. repeat case_match; simpl; try done.
    by rewrite !dom_slices_Sort.
  - unfold Equals. intros [[He He']|[Hm Hm']].
    + by rewrite (bool_decide_true (EntityID p ≠ "")),
         (bool_decide_true (EntityID p ≠ EntityID other)) by done.
    + rewrite (bool_decide_true (Email p ≠ "")),
        (bool_decide_true (Email p ≠ Email other)) by done.
      simpl. by destruct (_ && _).
  - intros Htrue. pose proof Htrue as Hv. apply Equals_verdict in Hv as (_ & _ & Hr).
    unfold rolesOf in Hr. revert Htrue. unfold Equals.
    repeat case_match; simpl; try done. intros _.
    rewrite !deref_slices_Sort.
    repeat destruct (decide _); rewrite ?sortStrings_idem; try done; congruence.
Qed.

(** X2: [Equals] is transitive, on all inputs: the receiver decides which
    identifiers are compared, and a field the first receiver compares is
    not empty in the second. *)
Theorem Equals_transitive a b c h :
  (Equals a b h).1 = true → (Equals b c h).1 = true → (Equals a c h).1 = true.
Proof.
  rewrite !Equals_verdict. intros (He1 & Hm1 & Hr1) (He2 & Hm2 & Hr2).
  split; [|split].
  - destruct He1 as [?|He1]; [by left|]. destruct He2 as [He2|He2]; [|right; congruence].
    left. congruence.
  - destruct Hm1 as [?|Hm1]; [by left|]. destruct Hm2 as [Hm2|Hm2]; [|right; congruence].
    left. congruence.
  - congruence.
Qed.

Lemma Equals_transitive_witness :
  ((Equals anonymousGrant legacyGrant exampleHeap).1 = true ∧
   (Equals legacyGrant currentGrant exampleHeap).1 = true) ∧
  (Equals anonymousGrant currentGrant exampleHeap).1 = true.
Proof.
  assert ((Equals anonymousGrant legacyGrant exampleHeap).1 = true) as H1
    by (by vm_compute).
  assert ((Equals legacyGrant currentGrant exampleHeap).1 = true) as H2
    by (by vm_compute).
  split; [by split|].
  exact (Equals_transitive anonymousGrant legacyGrant currentGrant exampleHeap H1 H2).
Defined.

(** X3: a permission sequence diffed against itself adds and removes
    nothing. *)
Theorem DiffPermissions_same before h :
  (DiffPermissions before before h).1 = ([], []).
Proof.
  destruct (DiffPermissions_filters before before h) as [-> _].
  assert (∀ x, x ∈ before → ¬ noMatchInBefore h before x) as Hb.
  { intros x Hx Hno. unfold noMatchInBefore in Hno. rewrite Forall_forall in Hno.
    specialize (Hno x Hx). by rewrite Equals_refl in Hno. }
  assert (∀ x, x ∈ before → ¬ noMatchInAfter h before x) as Ha.
  { intros x Hx Hno. unfold noMatchInAfter in Hno. rewrite Forall_forall in Hno.
    specialize (Hno x Hx). by rewrite Equals_refl in Hno. }
  f_equal; by apply filter_none.
Qed.

End metadata_more.

Section DiffPermissions_more.
Implicit Types (h : Heap) (before after acc : list Permission).

Lemma addedLoop_nothing_before after acc h :
  addedLoop after [] acc h = (acc ++ after, h).
Proof.
  revert acc. induction after as [|cp after IH]; intros acc; simpl.
  - by rewrite app_nil_r.
  - by rewrite IH, <-app_assoc.
Qed.

Lemma removedLoop_nothing_after before acc h :
  removedLoop before [] acc h = (acc ++ before, h).
Proof.
  revert acc. induction before as [|pp before IH]; intros acc; simpl.
  - by rewrite app_nil_r.
  - by rewrite IH, <-app_assoc.
Qed.

Lemma addedLoop_nothing_after before acc h : addedLoop [] before acc h = (acc, h).
Proof. done. Qed.

(** X4: against an empty side nothing is compared: with no [before]
    everything in [after] is added, with no [after] everything in [before]
    is removed, and no role array is touched. *)
Theorem DiffPermissions_empty_side (l : list Permission) h :
  DiffPermissions [] l h = ((l, []), h) ∧
  DiffPermissions l [] h = (([], l), h).
Proof.
  unfold DiffPermissions. split.
  - by rewrite addedLoop_nothing_before.
  - simpl. by rewrite removedLoop_nothing_after.
Qed.

(** X5: [DiffPermissions] reorders role arrays and does nothing else to
    them: after the call every array holds the roles it held, each as many
    times as before. *)
Theorem DiffPermissions_keeps_roles before after h (l : loc) :
  deref (DiffPermissions before after h).2 l ≡ₚ deref h l.
Proof.
  destruct (DiffPermissions_filters before after h) as [_ Hs].
  destruct (Hs l) as [->| ->]; [done|apply sortStrings_perm].
Qed.

End DiffPermissions_more.

(** ** [FilterPermissions] *)

Section FilterPermissions_facts.
Implicit Types (p : Permissionable) (perms : list Permissionable)
               (up : list Permission) (h : Heap).

(** An iteration appends what it would add to an empty slice. *)
Lemma filterPermission_app up p :
  filterPermission up p = up ++ filterPermission [] p.
Proof.
  unfold filterPermission. destruct (pGetGrantedToV2 p) as [gv2|].
  - destruct (classifyGrantee gv2) as [gv2t entityID].
    destruct (bool_decide (entityID = "")); by rewrite ?app_nil_r.
  - by rewrite app_nil_r.
Qed.

Lemma foldl_filterPermission up perms :
  foldl filterPermission up perms = up ++ FilterPermissions perms.
Proof.
  unfold FilterPermissions. revert up.
  induction perms as [|p perms IH]; intros up; simpl.
  - by rewrite app_nil_r.
  - rewrite (IH (filterPermission up p)), (IH (filterPermission [] p)).
    by rewrite (filterPermission_app up p), app_assoc.
Qed.

Lemma FilterPermissions_cons p perms :
  FilterPermissions (p :: perms) = filterPermission [] p ++ FilterPermissions perms.
Proof. unfold FilterPermissions at 1. simpl. apply foldl_filterPermission. Qed.

(** What one entry contributes: nothing, or one permission with an entity
    ID, no e-mail, and the entry's own role array. *)
Lemma filterPermission_one p :
  filterPermission [] p = [] ∨
  ∃ q, filterPermission [] p = [q] ∧
       EntityID q ≠ "" ∧ Email q = "" ∧ Roles q = pGetRoles p ∧
       is_Some (pGetGrantedToV2 p).
Proof.
  unfold filterPermission. destruct (pGetGrantedToV2 p) as [gv2|]; [|by left].
  destruct (classifyGrantee gv2) as [gv2t entityID].
  destruct (bool_decide_reflect (entityID = "")); [by left|].
  right. eexists. split; [done|]. simpl. eauto.
Qed.

(** X6: every permission [FilterPermissions] returns has an entity ID and
    no e-mail, and the returned permissions are entries of the input, in
    the input's order, each with the entry's own role array; entries
    without grantee are among those left out. *)
Theorem FilterPermissions_output perms :
  Forall (λ q, EntityID q ≠ "" ∧ Email q = "") (FilterPermissions perms) ∧
  Roles <$> FilterPermissions perms
    `sublist_of` pGetRoles <$> filter (λ p, is_Some (pGetGrantedToV2 p)) perms.
Proof.
  induction perms as [|p perms [IH1 IH2]]; [by split|].
  rewrite FilterPermissions_cons, filter_cons.
  destruct (filterPermission_one p) as [->|(q & -> & He & Hm & Hr & Hg)]; simpl.
  - split; [done|]. destruct (decide _); [|done]. simpl. by apply sublist_cons.
  - split; [by constructor|]. rewrite decide_True by done. simpl.
    rewrite Hr. by apply sublist_skip.
Qed.

(** X7: [FilterPermissions] works entry by entry: the permissions of a
    concatenation are the concatenation of the permissions. *)
Theorem FilterPermissions_app perms1 perms2 :
  FilterPermissions (perms1 ++ perms2)
    = FilterPermissions perms1 ++ FilterPermissions perms2.
Proof.
  unfold FilterPermissions at 1. rewrite foldl_app.
  by rewrite foldl_filterPermission.
Qed.

(** X8: on permissions that come out of [FilterPermissions], [Equals] is
    symmetric, and it answers true exactly for the same entity with the
    same roles up to order. *)
Theorem Equals_on_filtered perms1 perms2 (a b : Permission) h :
  a ∈ FilterPermissions perms1 → b ∈ FilterPermissions perms2 →
  (Equals a b h).1 = (Equals b a h).1 ∧
  ((Equals a b h).1 = true ↔
     EntityID a = EntityID b ∧ rolesOf h a ≡ₚ rolesOf h b).
Proof.
  intros Ha Hb.
  destruct (FilterPermissions_output perms1) as [H1 _].
  destruct (FilterPermissions_output perms2) as [H2 _].
  rewrite Forall_forall in H1, H2.
  destruct (H1 a Ha) as [Hae Ham], (H2 b Hb) as [Hbe Hbm].
  split.
  - apply eq_true_iff_eq. rewrite !Equals_verdict. intuition congruence.
  - rewrite Equals_verdict, sortStrings_eq_iff. intuition congruence.
Qed.

Lemma Equals_on_filtered_witness :
  (mkPermission "r2" 2 "" "u-17" GV2User None
     ∈ FilterPermissions [linkShare; userShare; groupShare] ∧
   mkPermission "" 1 "" "u-17" GV2User (Some 0%Z)
     ∈ FilterPermissions [sameUserShare]) ∧
  (Equals (mkPermission "r2" 2 "" "u-17" GV2User None)
          (mkPermission "" 1 "" "u-17" GV2User (Some 0%Z)) exampleHeap).1
  = (Equals (mkPermission "" 1 "" "u-17" GV2User (Some 0%Z))
            (mkPermission "r2" 2 "" "u-17" GV2User None) exampleHeap).1.
Proof.
  assert (mkPermission "r2" 2 "" "u-17" GV2User None
            ∈ FilterPermissions [linkShare; userShare; groupShare]) as H1
    by (vm_compute; apply list_elem_of_here).
  assert (mkPermission "" 1 "" "u-17" GV2User (Some 0%Z)
            ∈ FilterPermissions [sameUserShare]) as H2
    by (vm_compute; apply list_elem_of_here).
  split; [by split|].
  exact (proj1 (Equals_on_filtered _ _ _ _ exampleHeap H1 H2)).
Defined.

End FilterPermissions_facts.

(** ** The parent permission resolver, further *)

Section computeParentPermissions_more.
Context {P : Type} `{Path P}.
Implicit Types (metas : gmap string Metadata).

(** Induction up the hierarchy: a property that holds of a path whenever
    it holds of its parent holds of every path. *)
Lemma path_ind_up (Q : P → Prop) :
  (∀ p, (∀ q, Dir p = Ok q → Q q) → Q p) → ∀ p, Q p.
Proof.
  intros Hstep p. remember (length (Elements p)) as n eqn:Hn. revert p Hn.
  induction n as [n IH] using lt_wf_ind. intros p ->.
  apply Hstep. intros q Hq.
  apply (IH (length (Elements q))); [by apply Dir_shortens|done].
Qed.

(** X9: whatever [computeParentPermissions] answers without error has
    custom sharing: it is the empty metadata of the root, or the cached
    metadata with custom sharing of an ancestor the walk reaches. *)
Theorem computeParentPermissions_custom (origin : P) metas (m : Metadata) :
  computeParentPermissions origin metas = Ok m →
  MSharingMode m = SharingModeCustom ∧
  (m = emptyMetadata ∨
   ∃ a, walksTo metas origin a ∧ metas !! PString a = Some m).
Proof.
  revert m. induction origin as [p IH] using path_ind_up. intros m.
  rewrite computeParentPermissions_iteration.
  destruct (Dir p) as [a|] eqn:Hd; [|done].
  destruct (ToDrivePath a) as [dp|] eqn:Ht; [|done].
  destruct (bool_decide_reflect (length (DPFolders dp) = 0)) as [Hroot|Hroot].
  { intros [= <-]. split; [done|by left]. }
  destruct (metas !! PString a) as [meta|] eqn:Hm; [|done].
  destruct (bool_decide_reflect (MSharingMode meta = SharingModeCustom)) as [Hc|Hc].
  { intros [= <-]. split; [done|]. right. exists a. split; [by constructor|done]. }
  intros Hrec. destruct (IH a eq_refl m Hrec) as [Hcm [->|(b & Hw & Hb)]].
  - split; [done|by left].
  - split; [done|]. right. exists b. split; [|done].
    apply (walksTo_further metas p a b dp meta); try done.
    by destruct (DPFolders dp).
Qed.

End computeParentPermissions_more.

Lemma computeParentPermissions_custom_witness :
  computeParentPermissions exampleItemPath cacheCustomA = Ok customMeta ∧
  MSharingMode customMeta = SharingModeCustom.
Proof.
  split; [reflexivity|].
  exact (proj1 (computeParentPermissions_custom exampleItemPath cacheCustomA
                  customMeta eq_refl)).
Defined.

(** ** [UpdatePermissions] and [RestorePermissions], further *)

Section UpdatePermissions_more.
Context {R : Type} `{updateDeleteItemPermissioner R}.
Variable Time_String : Time → string.
Implicit Types (w : World R) (ids : gmap string string) (p : Permission).

(** The first loop sends at most one call for each removed permission. *)
Lemma removeLoop_count (d i : string) (removed : list Permission) ids w :
  ∃ ds, calls (removeLoop d i removed ids w).2 = calls w ++ ds ∧
        length ds ≤ length removed.
Proof.
  revert w. induction removed as [|p removed IH]; intros w; simpl.
  - exists []. by rewrite app_nil_r.
  - destruct (ids !! ID p) as [pid|]; simpl.
    + destruct (DeleteItemPermission (remote w) d i pid) as [r [e|]]; simpl.
      * exists [CallDelete d i pid]. split; [done|simpl; lia].
      * destruct (IH (mkWorld (heap w) r (calls w ++ [CallDelete d i pid])))
          as (ds & Hc & Hlen).
        exists (CallDelete d i pid :: ds). simpl in *.
        split; [by rewrite Hc, <-app_assoc|lia].
    + exists []. rewrite app_nil_r. split; [done|simpl; lia].
Qed.

(** The first loop fails when a removed permission has no new ID. *)
Lemma removeLoop_unmapped (d i : string) (removed : list Permission) ids w p :
  p ∈ removed → ids !! ID p = None →
  is_Some (removeLoop d i removed ids w).1.
Proof.
  intros Hin Hid. revert w.
  induction removed as [|q removed IH]; intros w; [by apply elem_of_nil in Hin|].
  simpl. destruct (ids !! ID q) as [pid|] eqn:Hq; [|by eexists].
  destruct (DeleteItemPermission (remote w) d i pid) as [r [e|]]; [by eexists|].
  apply IH. apply elem_of_cons in Hin as [->|Hin]; [congruence|done].
Qed.

(** The second loop never forgets a mapping. *)
Lemma addLoop_ids_keep (d i : string) (added : list Permission) ids w (k : string) :
  is_Some (ids !! k) →
  is_Some ((addLoop Time_String d i added ids w).1.2 !! k).
Proof.
  revert ids w. induction added as [|p added IH]; intros ids w Hk; [done|].
  simpl. destruct (_ || _); [by apply IH|].
  destruct (PostItemPermissionUpdate _ _ _ _) as [r [[|newID value]|err]];
    simpl; try done.
  apply IH. rewrite lookup_insert. by destruct (decide _).
Qed.

(** When it runs to its end it has recorded an ID for every permission it
    created. *)
Lemma addLoop_ids_recorded (d i : string) (added : list Permission) ids w p :
  (addLoop Time_String d i added ids w).1.1 = Returns None →
  p ∈ added → restorable (heap w) p →
  is_Some ((addLoop Time_String d i added ids w).1.2 !! ID p).
Proof.
  revert ids w. induction added as [|q added IH]; intros ids w Hret Hin Hr;
    [by apply elem_of_nil in Hin|].
  simpl in *.
  destruct (bool_decide (length (nonOwnerRoles (heap w) q) = 0)
              || bool_decide (EntityType q = GV2SiteGroup)) eqn:Hskip.
  - apply elem_of_cons in Hin as [->|Hin]; [|by apply IH].
    apply skip_test_restorable in Hr. congruence.
  - destruct (PostItemPermissionUpdate _ _ _ _) as [r [[|newID value]|err]];
      simpl in *; try done.
    apply elem_of_cons in Hin as [->|Hin].
    + apply addLoop_ids_keep. rewrite lookup_insert_eq. by eexists.
    + by apply IH.
Qed.

(** X10: when [UpdatePermissions] returns nil, every added permission that
    is restorable has a new ID recorded under its old one. *)
Theorem UpdatePermissions_records_ids (d i : string)
    (added removed : list Permission) ids w p :
  (UpdatePermissions Time_String d i added removed ids w).1.1 = Returns None →
  p ∈ added → restorable (heap w) p →
  is_Some ((UpdatePermissions Time_String d i added removed ids w).1.2 !! ID p).
Proof.
  unfold UpdatePermissions.
  destruct (removeLoop_calls d i removed ids w) as (Hh & _).
  destruct (removeLoop d i removed ids w) as [[err|] w']; simpl in *; [done|].
  rewrite <-Hh. apply addLoop_ids_recorded.
Qed.

(** X11: [UpdatePermissions] writes no role array, only adds to the log of
    calls, and sends at most one call for each removed permission and one
    for each restorable added one. *)
Theorem UpdatePermissions_frame (d i : string)
    (added removed : list Permission) ids w :
  heap (UpdatePermissions Time_String d i added removed ids w).2 = heap w ∧
  ∃ sent,
    calls (UpdatePermissions Time_String d i added removed ids w).2
      = calls w ++ sent ∧
    length sent ≤ length removed + length (filter (restorable (heap w)) added).
Proof.
  unfold UpdatePermissions.
  destruct (removeLoop_calls d i removed ids w) as (Hh & _).
  destruct (removeLoop_count d i removed ids w) as (ds & Hc & Hlen).
  destruct (removeLoop d i removed ids w) as [[err|] w']; simpl in *.
  - split; [done|]. exists ds. split; [done|lia].
  - destruct (addLoop_calls Time_String d i added ids w')
      as (Hh' & cs & Hc' & Hpre & _).
    split; [congruence|]. exists (ds ++ cs).
    split; [by rewrite Hc', Hc, <-app_assoc|].
    apply prefix_length in Hpre. rewrite length_map, Hh in Hpre.
    rewrite length_app. lia.
Qed.

(** X12: when some removed permission has no new ID in the map,
    [UpdatePermissions] returns an error and issues no create call. *)
Theorem UpdatePermissions_unmapped_removed (d i : string)
    (added removed : list Permission) ids w p :
  p ∈ removed → ids !! ID p = None →
  (∃ err, (UpdatePermissions Time_String d i added removed ids w).1.1
            = Returns (Some err)) ∧
  (UpdatePermissions Time_String d i added removed ids w).1.2 = ids ∧
  ∃ ds, calls (UpdatePermissions Time_String d i added removed ids w).2
          = calls w ++ ds ∧
        Forall (λ c, isDelete c = true) ds.
Proof.
  intros Hin Hid. unfold UpdatePermissions.
  destruct (removeLoop_unmapped d i removed ids w p Hin Hid) as [err Herr].
  destruct (removeLoop_calls d i removed ids w) as (_ & ds & Hc & Hds & _).
  destruct (removeLoop d i removed ids w) as [[err'|] w']; simpl in *; [|done].
  split; [by eexists|]. split; [done|]. by exists ds.
Qed.

End UpdatePermissions_more.

Lemma UpdatePermissions_records_ids_witness :
  ((UpdatePermissions exampleTimeString "d1" "item-1"
      [anonymousGrant; currentGrant] [legacyGrant] {[ "p1" := "new-p1" ]}
      exampleWorld).1.1 = Returns None ∧
   currentGrant ∈ [anonymousGrant; currentGrant] ∧
   restorable (heap exampleWorld) currentGrant) ∧
  is_Some ((UpdatePermissions exampleTimeString "d1" "item-1"
              [anonymousGrant; currentGrant] [legacyGrant] {[ "p1" := "new-p1" ]}
              exampleWorld).1.2 !! ID currentGrant).
Proof.
  assert ((UpdatePermissions exampleTimeString "d1" "item-1"
             [anonymousGrant; currentGrant] [legacyGrant] {[ "p1" := "new-p1" ]}
             exampleWorld).1.1 = Returns None) as Hret by (by vm_compute).
  assert (currentGrant ∈ [anonymousGrant; currentGrant]) as Hin
    by (apply list_elem_of_further, list_elem_of_here).
  assert (restorable (heap exampleWorld) currentGrant) as Hr
    by (split; [by vm_compute|discriminate]).
  split; [by repeat split|].
  exact (UpdatePermissions_records_ids exampleTimeString "d1" "item-1" _ _ _ _ _
           Hret Hin Hr).
Defined.

Lemma UpdatePermissions_unmapped_removed_witness :
  (legacyGrant ∈ [legacyGrant] ∧ (∅ : gmap string string) !! ID legacyGrant = None) ∧
  ∃ err, (UpdatePermissions exampleTimeString "d1" "item-1"
            [currentGrant] [legacyGrant] ∅ exampleWorld).1.1 = Returns (Some err).
Proof.
  assert (legacyGrant ∈ [legacyGrant]) as Hin by apply list_elem_of_here.
  split; [by split|].
  exact (proj1 (UpdatePermissions_unmapped_removed exampleTimeString "d1" "item-1"
                  [currentGrant] [legacyGrant] ∅ exampleWorld legacyGrant
                  Hin eq_refl)).
Defined.

Section RestorePermissions_more.
Context {P : Type} `{Path P} {R : Type} `{updateDeleteItemPermissioner R}.
Variable Time_String : Time → string.
Implicit Types (w : World R) (ids : gmap string string) (caches : restoreCaches).

(** The calls of one [UpdatePermissions]: deletes, then creates; the role
    arrays as they were. *)
Lemma UpdatePermissions_shape (d i : string) (added removed : list Permission) ids w :
  heap (UpdatePermissions Time_String d i added removed ids w).2 = heap w ∧
  ∃ ds cs,
    calls (UpdatePermissions Time_String d i added removed ids w).2
      = calls w ++ ds ++ cs ∧
    Forall (λ c, isDelete c = true) ds ∧ Forall (λ c, isPost c = true) cs.
Proof.
  unfold UpdatePermissions.
  destruct (removeLoop_calls d i removed ids w) as (Hh & ds & Hc & Hds & _).
  destruct (removeLoop d i removed ids w) as [[err|] w']; simpl in *.
  - split; [done|]. exists ds, []. by rewrite app_nil_r.
  - destruct (addLoop_calls Time_String d i added ids w')
      as (Hh' & cs & Hc' & [k Hpre] & _).
    split; [congruence|]. exists ds, cs.
    split; [by rewrite Hc', Hc, <-app_assoc|]. split; [done|].
    assert (Forall (λ c, isPost c = true) (cs ++ k)) as Hposts.
    { rewrite <-Hpre. apply Forall_forall. intros c Hin.
      apply list_elem_of_fmap in Hin as (q & -> & _). done. }
    by apply Forall_app in Hposts as [? _].
Qed.

(** X13: what [RestorePermissions] leaves alone.  The parent-metadata cache
    comes back as it was; the log of calls only grows, by deletes followed
    by creates; and every role array holds the roles it held, at most
    reordered. *)
Theorem RestorePermissions_frame (d i : string) (itemPath : P)
    (current : Metadata) caches w :
  ParentDirToMeta (RestorePermissions Time_String d i itemPath current caches w).1.2
    = ParentDirToMeta caches ∧
  (∃ ds cs,
     calls (RestorePermissions Time_String d i itemPath current caches w).2
       = calls w ++ ds ++ cs ∧
     Forall (λ c, isDelete c = true) ds ∧ Forall (λ c, isPost c = true) cs) ∧
  (∀ l, deref (heap (RestorePermissions Time_String d i itemPath current caches w).2) l
          ≡ₚ deref (heap w) l).
Proof.
  unfold RestorePermissions.
  destruct (bool_decide (MSharingMode current = SharingModeInherited)).
  { simpl. split; [done|]. split; [|done]. exists [], []. by rewrite app_nil_r. }
  destruct (computeParentPermissions itemPath (ParentDirToMeta caches)) as [parents|err].
  2:{ simpl. split; [done|]. split; [|done]. exists [], []. by rewrite app_nil_r. }
  pose proof (DiffPermissions_keeps_roles (Permissions parents) (Permissions current)
                (heap w)) as Hroles.
  destruct (DiffPermissions (Permissions parents) (Permissions current) (heap w))
    as [[permAdded permRemoved] h]. simpl in Hroles.
  destruct (UpdatePermissions_shape d i permAdded permRemoved (OldPermIDToNewID caches)
              (mkWorld h (remote w) (calls w))) as (Hh & ds & cs & Hc & Hds & Hcs).
  destruct (UpdatePermissions Time_String d i permAdded permRemoved
              (OldPermIDToNewID caches) (mkWorld h (remote w) (calls w)))
    as [[result ids] w']. simpl in *.
  split; [done|]. split; [by exists ds, cs|].
  intros l. rewrite Hh. apply Hroles.
Qed.

(** X14: an item with custom sharing whose permissions each match one of
    the inherited baseline, and cover it, needs nothing: [RestorePermissions]
    returns nil, sends no call, and leaves the caches and the remote as
    they were. *)
Theorem RestorePermissions_nothing_to_do (d i : string) (itemPath : P)
    (current parents : Metadata) caches w :
  MSharingMode current ≠ SharingModeInherited →
  computeParentPermissions itemPath (ParentDirToMeta caches) = Ok parents →
  (∀ cp, cp ∈ Permissions current →
         ∃ pp, pp ∈ Permissions parents ∧ (Equals cp pp (heap w)).1 = true) →
  (∀ pp, pp ∈ Permissions parents →
         ∃ cp, cp ∈ Permissions current ∧ (Equals cp pp (heap w)).1 = true) →
  (RestorePermissions Time_String d i itemPath current caches w).1 = (Returns None, caches) ∧
  remote (RestorePermissions Time_String d i itemPath current caches w).2 = remote w ∧
  calls (RestorePermissions Time_String d i itemPath current caches w).2 = calls w.
Proof.
  intros Hmode Hparents Hcur Hpar. unfold RestorePermissions.
  rewrite bool_decide_false by done. rewrite Hparents.
  destruct (DiffPermissions_filters (Permissions parents) (Permissions current)
              (heap w)) as [Hd _].
  destruct (DiffPermissions (Permissions parents) (Permissions current) (heap w))
    as [[permAdded permRemoved] h]. simpl in Hd.
  rewrite !filter_none in Hd.
  - injection Hd as -> ->. simpl. by destruct caches.
  - intros pp Hpp Hno. destruct (Hpar pp Hpp) as (cp & Hcp & Heq).
    unfold noMatchInAfter in Hno. rewrite Forall_forall in Hno.
    specialize (Hno cp Hcp). congruence.
  - intros cp Hcp Hno. destruct (Hcur cp Hcp) as (pp & Hpp & Heq).
    unfold noMatchInBefore in Hno. rewrite Forall_forall in Hno.
    specialize (Hno pp Hpp). congruence.
Qed.

End RestorePermissions_more.

Lemma RestorePermissions_nothing_to_do_witness :
  calls (RestorePermissions exampleTimeString "d1" "item-1" scenarioItemPath
           (mkMetadata SharingModeCustom [itemRead]) scenarioCaches
           (mkWorld scenarioHeap (mkObligingRemote 0) [])).2 = [].
Proof.
  refine (proj2 (proj2 (RestorePermissions_nothing_to_do exampleTimeString
            "d1" "item-1" scenarioItemPath
            (mkMetadata SharingModeCustom [itemRead])
            (mkMetadata SharingModeCustom [folderRead]) scenarioCaches
            (mkWorld scenarioHeap (mkObligingRemote 0) []) _ eq_refl _ _))).
  - discriminate.
  - intros cp ->%list_elem_of_singleton. exists folderRead.
    split; [apply list_elem_of_here|by vm_compute].
  - intros pp ->%list_elem_of_singleton. exists itemRead.
    split; [apply list_elem_of_here|by vm_compute].
Defined.

(** ** [getCollectionMetadata], further *)

Section getCollectionMetadata_more.
Context {P : Type} `{Path P} {C : Type}.
Variables (V4 V5 : Z) (suffix : string).
Variable FullPath : C → P.
Variable fetch : C → string → res Metadata.

(** X15: the one way [getCollectionMetadata] panics: permissions are
    restored, the version is at or past both the data-and-meta-files and
    the directory-includes-permissions versions, the drive path has folders,
    and the collection's full path has none. *)
Theorem getCollectionMetadata_panics_iff (drivePath : DrivePath) (dc : C)
    (caches : restoreCaches) (v : Z) (restorePerms : bool) :
  getCollectionMetadata V4 V5 suffix FullPath fetch drivePath dc caches v restorePerms
    = Panics ↔
  restorePerms = true ∧ (OneDrive1DataAndMetaFiles ≤ v)%Z ∧ (V4 ≤ v)%Z ∧
  DPFolders drivePath ≠ [] ∧ Folders (FullPath dc) = [].
Proof.
  unfold getCollectionMetadata.
  destruct restorePerms; simpl; [|by intuition].
  destruct (bool_decide_reflect (v < OneDrive1DataAndMetaFiles)%Z);
    [split; [done|intros (_ & ? & _); lia]|].
  destruct (bool_decide_reflect (length (DPFolders drivePath) = 0)) as [Hr|Hr].
  { split; [done|]. intros (_ & _ & _ & Hf & _). by destruct (DPFolders drivePath). }
  destruct (bool_decide_reflect (v < V4)%Z).
  { split; [|intros (_ & _ & ? & _); lia]. by destruct (getParentMetadata _ _). }
  destruct (last (Folders (FullPath dc))) as [lastFolder|] eqn:Hlast.
  - split; [by destruct (fetch _ _)|].
    intros (_ & _ & _ & _ & Hnil). by rewrite Hnil in Hlast.
  - apply last_None in Hlast. split; [|done]. intros _.
    repeat split; try done; try lia. by destruct (DPFolders drivePath).
Qed.

(** X16: below the directory-includes-permissions version the records of
    the collection are not read, nor the no-name version and the suffix
    consulted; from it onward the caches are not read. *)
Theorem getCollectionMetadata_reads (drivePath : DrivePath) (dc : C)
    (caches caches' : restoreCaches) (v : Z) (restorePerms : bool)
    (V5' : Z) (suffix' : string) (fetch' : C → string → res Metadata) :
  ((v < V4)%Z →
     getCollectionMetadata V4 V5 suffix FullPath fetch drivePath dc caches v restorePerms
     = getCollectionMetadata V4 V5' suffix' FullPath fetch' drivePath dc caches v restorePerms) ∧
  ((V4 ≤ v)%Z →
     getCollectionMetadata V4 V5 suffix FullPath fetch drivePath dc caches v restorePerms
     = getCollectionMetadata V4 V5 suffix FullPath fetch drivePath dc caches' v restorePerms).
Proof.
  unfold getCollectionMetadata. split; intros Hv.
  - destruct (negb restorePerms || _); [done|].
    destruct (bool_decide (length (DPFolders drivePath) = 0)); [done|].
    by rewrite (bool_decide_true (v < V4)%Z).
  - destruct (negb restorePerms || _); [done|].
    destruct (bool_decide (length (DPFolders drivePath) = 0)); [done|].
    by rewrite (bool_decide_false (v < V4)%Z) by lia.
Qed.

End getCollectionMetadata_more.

(** ** [GetAllDrives] *)

Section GetAllDrives_facts.
Context {D : Type}.
Variables hasLabel isTimeout : error → bool.
Context {Pg : Type} `{DrivePager Pg D}.
Implicit Types (pager : Pg) (log : list PagerEvent) (errs : list error).

(** Attempts that time out and are retried: the loop goes on with the next
    index, one sleep of three more seconds after each attempt. *)
Lemma retryLoop_timesOut pager errs pager' (maxRetryCount : Z) :
  timesOut hasLabel isTimeout pager errs pager' →
  ∀ (i len : Z) log,
    (i + Z.of_nat (length errs) ≤ maxRetryCount)%Z →
    (Z.of_nat (length errs) ≤ len)%Z →
    retryLoop hasLabel isTimeout (seqZ i len) maxRetryCount pager log =
    retryLoop hasLabel isTimeout
      (seqZ (i + Z.of_nat (length errs)) (len - Z.of_nat (length errs)))
      maxRetryCount pager'
      (log ++ (seqZ i (Z.of_nat (length errs))
                 ≫= λ j, [EvGetPage; EvSleep (3 * (j + 1))])).
Proof.
  induction 1 as [pager|pager pager1 pager' err errs Hget Hl Ht Hto IH];
    intros i len log Hmax Hlen; simpl length in *.
  - rewrite Z.add_0_r, Z.sub_0_r. simpl. by rewrite app_nil_r.
  - rewrite (seqZ_cons i len) by lia. simpl. rewrite Hget, Hl, Ht. simpl.
    rewrite bool_decide_true by lia.
    rewrite (IH (Z.succ i) (Z.pred len)) by lia.
    rewrite (seqZ_cons i (Z.of_nat (S (length errs)))) by lia. simpl.
    replace (Z.pred (Z.of_nat (S (length errs)))) with (Z.of_nat (length errs)) by lia.
    replace (Z.succ i + Z.of_nat (length errs))%Z
      with (i + Z.of_nat (S (length errs)))%Z by lia.
    replace (Z.pred len - Z.of_nat (length errs))%Z
      with (len - Z.of_nat (S (length errs)))%Z by lia.
    by rewrite <-!app_assoc.
Qed.

(** X17: giving up.  After attempts that timed out and were retried, an
    error that is not a timeout, or a timeout on the last attempt allowed,
    ends [GetAllDrives]: it returns that error, wrapped, having slept 3, 6,
    9, ... seconds between the attempts. *)
Theorem GetAllDrives_gives_up (fuel : nat) pager pager1 pager2 errs (err : error)
    (maxRetryCount : Z) :
  (0 ≤ maxRetryCount)%Z →
  timesOut hasLabel isTimeout pager errs pager1 →
  (Z.of_nat (length errs) ≤ maxRetryCount)%Z →
  GetPage pager1 = (pager2, Fail err) →
  hasLabel err = false →
  isTimeout err = false ∨ Z.of_nat (length errs) = maxRetryCount →
  GetAllDrives hasLabel isTimeout (S fuel) pager true maxRetryCount
  = Some (Returns (Fail (ErrWrap err "retrieving drives")), pager2,
          retryEvents (length errs) ++ [EvGetPage]).
Proof.
  intros Hmax Hto Hlen Hget Hl Hlast. unfold GetAllDrives. simpl.
  rewrite (retryLoop_timesOut pager errs pager1 maxRetryCount Hto) by lia.
  rewrite seqZ_cons by lia. simpl. rewrite Hget, Hl.
  assert (isTimeout err && bool_decide (0 + Z.of_nat (length errs) < maxRetryCount)%Z
          = false) as ->.
  { destruct Hlast as [->|Hk]; [done|]. rewrite bool_decide_false by lia.
    apply andb_false_r. }
  done.
Qed.

(** X18: recovering.  After attempts that timed out and were retried, no
    more often than [maxRetryCount] allows, a page that is the last one
    gives its drives as the result. *)
Theorem GetAllDrives_recovers (fuel : nat) pager pager1 pager2 pager3 errs
    (page : PageLinker D) (drives : list D) (maxRetryCount : Z) :
  timesOut hasLabel isTimeout pager errs pager1 →
  (Z.of_nat (length errs) ≤ maxRetryCount)%Z →
  GetPage pager1 = (pager2, Ok (Some page)) →
  ValuesIn pager2 (Some page) = (pager3, Ok drives) →
  ptrVal (GetOdataNextLink page) = "" →
  GetAllDrives hasLabel isTimeout (S fuel) pager true maxRetryCount
  = Some (Returns (Ok drives), pager3, retryEvents (length errs) ++ [EvGetPage]).
Proof.
  intros Hto Hlen Hget Hvals Hnext. unfold GetAllDrives. simpl.
  rewrite (retryLoop_timesOut pager errs pager1 maxRetryCount Hto) by lia.
  rewrite seqZ_cons by lia. simpl. rewrite Hget, Hvals, Hnext. done.
Qed.

(** X19: with [retry] off nothing is retried, whatever [maxRetryCount]: the
    first error without the "mysite not found" label is returned, wrapped,
    after the one attempt. *)
Theorem GetAllDrives_no_retry (fuel : nat) pager pager1 (err : error)
    (maxRetryCount : Z) :
  GetPage pager = (pager1, Fail err) →
  hasLabel err = false →
  GetAllDrives hasLabel isTimeout (S fuel) pager false maxRetryCount
  = Some (Returns (Fail (ErrWrap err "retrieving drives")), pager1, [EvGetPage]).
Proof.
  intros Hget Hl. unfold GetAllDrives. simpl. rewrite Hget, Hl.
  by rewrite andb_false_r.
Qed.

(** An error with the "mysite not found" label ends the paging with no
    drives and no error, whatever was gathered. *)
Lemma pagesLoop_mysite_not_found (fuel : nat) pager pager1 (err : error)
    (maxRetryCount : Z) (ds : list D) log :
  (0 ≤ maxRetryCount)%Z →
  GetPage pager = (pager1, Fail err) →
  hasLabel err = true →
  pagesLoop hasLabel isTimeout (S fuel) maxRetryCount ds pager log
  = Some (Returns (Ok []), pager1, log ++ [EvGetPage]).
Proof.
  intros Hmax Hget Hl. simpl. rewrite seqZ_cons by lia. simpl.
  by rewrite Hget, Hl.
Qed.

(** With [retry] on and a negative [maxRetryCount] no page is asked for;
    the paging ends on what [ValuesIn] makes of a nil page, an error or, if
    it makes drives of it, a panic. *)
Lemma GetAllDrives_no_attempt (fuel : nat) pager (maxRetryCount : Z) :
  (maxRetryCount < 0)%Z →
  GetAllDrives hasLabel isTimeout (S fuel) pager true maxRetryCount
  = match ValuesIn pager None with
    | (pager', Fail err) =>
        Some (Returns (Fail (ErrWrap err "extracting drives from response")),
              pager', [])
    | (pager', Ok _) => Some (Panics, pager', [])
    end.
Proof.
  intros Hneg. unfold GetAllDrives. simpl.
  rewrite seqZ_nil by lia. simpl.
  by destruct (ValuesIn pager None) as [pager' [drives|err]].
Qed.

End GetAllDrives_facts.

(** ** [GetAllDrives] over the pagers of the file *)

Section pagers_facts.
Context {D : Type}.
Variables hasLabel isTimeout : error → bool.
Variable typeName : option (PageLinker D) → string.

Lemma string_length_0 (s : string) : String.length s = 0 ↔ s = "".
Proof. by destruct s. Qed.

(** The site pager walks through pages that link on, gathering their
    drives and following their links. *)
Lemma site_pagesLoop_walk (pages : list (list D * string)) :
  ∀ (fuel : nat) (m : Z) (ds : list D) (reqs : list Builder) (b : Builder)
    (log : list PagerEvent) (rest : list (res (PageLinker D)))
    (dd : res D) (asked fields : list string),
    (0 ≤ m)%Z → Forall (λ pg, pg.2 ≠ "") pages →
    ∃ reqs' b',
      pagesLoop hasLabel isTimeout (length pages + fuel) m ds
        (mkSiteDrivePager
           (mkScriptedService ((linkedPage <$> pages) ++ rest) reqs dd asked)
           b fields) log
      = pagesLoop hasLabel isTimeout fuel m (ds ++ concat (fst <$> pages))
          (mkSiteDrivePager (mkScriptedService rest reqs' dd asked) b' fields)
          (log ++ walkEvents (snd <$> pages)).
Proof.
  induction pages as [|[vs link] pages IH];
    intros fuel m ds reqs b log rest dd asked fields Hm Hlinks.
  - exists reqs, b. simpl. by rewrite !app_nil_r.
  - apply Forall_cons in Hlinks as [Hlink Hlinks]. simpl in Hlink.
    destruct (IH fuel m (ds ++ vs) (reqs ++ [b]) (FromLink link)
                ((log ++ [EvGetPage]) ++ [EvSetNext link]) rest dd asked fields
                Hm Hlinks) as (reqs' & b' & Hwalk).
    exists reqs', b'. simpl. rewrite seqZ_cons by lia. simpl.
    rewrite bool_decide_false by (by rewrite string_length_0).
    unfold siteDrivePager_SetNext. simpl.
    etrans; [exact Hwalk|]. by rewrite <-!app_assoc.
Qed.

(** X20: the site pager over pages that link on and a last page that does
    not: [GetAllDrives] returns the drives of all pages, in order, having
    asked for one page after the other and followed each link. *)
Theorem GetAllDrives_site_pages (pages : list (list D * string))
    (lastDrives : list D) (lastLink : option string)
    (rest : list (res (PageLinker D))) (dd : res D)
    (siteID : string) (fields : list string)
    (fuel : nat) (retry : bool) (maxRetryCount : Z) :
  (retry = true → 0 ≤ maxRetryCount)%Z →
  Forall (λ pg, pg.2 ≠ "") pages →
  ptrVal lastLink = "" →
  ∃ pager',
    GetAllDrives hasLabel isTimeout (length pages + S fuel)
      (NewSiteDrivePager
         (mkScriptedService
            ((linkedPage <$> pages) ++ Ok (collectionResponse lastDrives lastLink) :: rest)
            [] dd [])
         siteID fields)
      retry maxRetryCount
    = Some (Returns (Ok (concat (fst <$> pages) ++ lastDrives)), pager',
            walkEvents (snd <$> pages) ++ [EvGetPage]) ∧
    pending (sdpGs pager') = rest.
Proof.
  intros Hmax Hlinks Hlast. unfold GetAllDrives, NewSiteDrivePager.
  set (m := if negb retry then 0%Z else maxRetryCount).
  assert (0 ≤ m)%Z as Hm by (subst m; destruct retry; simpl; [by apply Hmax|done]).
  destruct (site_pagesLoop_walk pages (S fuel) m [] [] (SiteDrives siteID) []
              (Ok (collectionResponse lastDrives lastLink) :: rest) dd [] fields
              Hm Hlinks) as (reqs' & b' & ->).
  simpl. rewrite seqZ_cons by lia. simpl. rewrite Hlast. simpl.
  eexists. split; [done|done].
Qed.

(** X21: the same pages followed by an error with the "mysite not found"
    label: [GetAllDrives] returns no drives and no error; the drives of the
    pages before are dropped. *)
Theorem GetAllDrives_site_not_found (pages : list (list D * string))
    (err : error) (rest : list (res (PageLinker D))) (dd : res D)
    (siteID : string) (fields : list string)
    (fuel : nat) (retry : bool) (maxRetryCount : Z) :
  (retry = true → 0 ≤ maxRetryCount)%Z →
  Forall (λ pg, pg.2 ≠ "") pages →
  hasLabel (ErrStack err) = true →
  ∃ pager',
    GetAllDrives hasLabel isTimeout (length pages + S fuel)
      (NewSiteDrivePager
         (mkScriptedService ((linkedPage <$> pages) ++ Fail err :: rest) [] dd [])
         siteID fields)
      retry maxRetryCount
    = Some (Returns (Ok []), pager', walkEvents (snd <$> pages) ++ [EvGetPage]).
Proof.
  intros Hmax Hlinks Hl. unfold GetAllDrives, NewSiteDrivePager.
  set (m := if negb retry then 0%Z else maxRetryCount).
  assert (0 ≤ m)%Z as Hm by (subst m; destruct retry; simpl; [by apply Hmax|done]).
  destruct (site_pagesLoop_walk pages (S fuel) m [] [] (SiteDrives siteID) []
              (Fail err :: rest) dd [] fields Hm Hlinks) as (reqs' & b' & ->).
  eexists. rewrite app_nil_l.
  apply (pagesLoop_mysite_not_found hasLabel isTimeout fuel _ _ (ErrStack err));
    [done| |done].
  unfold GetPage. simpl. unfold siteDrivePager_GetPage. simpl. reflexivity.
Qed.

Context {G : Type} `{driveService G D}.

(** X22: the user pager has one page, the user's default drive: when the
    service answers it, [GetAllDrives] returns exactly that drive after one
    request, and follows no link. *)
Theorem GetAllDrives_user_default_drive (gs gs' : G) (userID : string)
    (fields : list string) (d : D) (fuel : nat) (retry : bool) (maxRetryCount : Z) :
  (retry = true → 0 ≤ maxRetryCount)%Z →
  defaultDriveGet gs userID = (gs', Ok d) →
  GetAllDrives hasLabel isTimeout (H0 := userDrivePager_pager typeName) (S fuel)
    (NewUserDrivePager gs userID fields) retry maxRetryCount
  = Some (Returns (Ok [d]),
          mkUserDrivePager userID gs' (UserDrives userID) fields,
          [EvGetPage]).
Proof.
  intros Hmax Hget. unfold GetAllDrives.
  set (m := if negb retry then 0%Z else maxRetryCount).
  assert (0 ≤ m)%Z as Hm by (subst m; destruct retry; simpl; [by apply Hmax|done]).
  simpl. rewrite seqZ_cons by lia. simpl.
  unfold userDrivePager_GetPage. simpl. by rewrite Hget.
Qed.

(** X23: with [retry] on and a negative [maxRetryCount], [GetAllDrives]
    asks neither pager for a page and fails on extracting drives from the
    nil page. *)
Theorem GetAllDrives_negative_retries (fuel : nat) (maxRetryCount : Z)
    (site : @siteDrivePager G) (user : @userDrivePager G) :
  (maxRetryCount < 0)%Z →
  GetAllDrives hasLabel isTimeout (S fuel) site true maxRetryCount
  = Some (Returns (Fail (ErrWrap
            (ErrNew "page does not comply with GetValue() interface")
            "extracting drives from response")), site, []) ∧
  GetAllDrives hasLabel isTimeout (H0 := userDrivePager_pager typeName) (S fuel)
    user true maxRetryCount
  = Some (Returns (Fail (ErrWrap
            (ErrNew ("improper page linker struct for user drives: "
                     +:+ typeName None))
            "extracting drives from response")), user, []).
Proof.
  intros Hneg. split.
  - by rewrite GetAllDrives_no_attempt.
  - by rewrite GetAllDrives_no_attempt.
Qed.

End pagers_facts.

Lemma GetAllDrives_gives_up_witness :
  (λ r, (r.1.1, r.2)) <$>
    GetAllDrives exampleHasLabel exampleIsTimeout 1
      (NewSiteDrivePager timingOutService "site" []) true 1
  = Some (Returns (Fail (ErrWrap (ErrStack (ErrExternal "timeout")) "retrieving drives")),
          [EvGetPage; EvSleep 3; EvGetPage]).
Proof.
  erewrite (GetAllDrives_gives_up exampleHasLabel exampleIsTimeout 0
              (NewSiteDrivePager timingOutService "site" []) _ _
              [ErrStack (ErrExternal "timeout")] (ErrStack (ErrExternal "timeout")) 1).
  - reflexivity.
  - done.
  - eapply timesOut_cons; [reflexivity|reflexivity|reflexivity|apply timesOut_nil].
  - done.
  - reflexivity.
  - reflexivity.
  - by right.
Defined.

Lemma GetAllDrives_recovers_witness :
  (λ r, (r.1.1, r.2)) <$>
    GetAllDrives exampleHasLabel exampleIsTimeout 1
      (NewSiteDrivePager recoveringService "site" []) true 2
  = Some (Returns (Ok ["drive A"]), [EvGetPage; EvSleep 3; EvGetPage]).
Proof.
  erewrite (GetAllDrives_recovers exampleHasLabel exampleIsTimeout 0
              (NewSiteDrivePager recoveringService "site" []) _ _ _
              [ErrStack (ErrExternal "timeout")]
              (collectionResponse ["drive A"] None) ["drive A"] 2).
  - reflexivity.
  - eapply timesOut_cons; [reflexivity|reflexivity|reflexivity|apply timesOut_nil].
  - done.
  - reflexivity.
  - reflexivity.
  - reflexivity.
Defined.

Lemma GetAllDrives_no_retry_witness :
  (λ r, (r.1.1, r.2)) <$>
    GetAllDrives exampleHasLabel exampleIsTimeout 1
      (NewSiteDrivePager recoveringService "site" []) false 5
  = Some (Returns (Fail (ErrWrap (ErrStack (ErrExternal "timeout")) "retrieving drives")),
          [EvGetPage]).
Proof.
  erewrite (GetAllDrives_no_retry exampleHasLabel exampleIsTimeout 0
              (NewSiteDrivePager recoveringService "site" []) _
              (ErrStack (ErrExternal "timeout")) 5).
  - reflexivity.
  - reflexivity.
  - reflexivity.
Defined.

Lemma GetAllDrives_site_pages_witness :
  ∃ pager',
    GetAllDrives exampleHasLabel exampleIsTimeout 3
      (NewSiteDrivePager
         (mkScriptedService
            [Ok (collectionResponse ["drive A"; "drive B"] (Some "link-1"));
             Ok (collectionResponse ["drive C"] (Some "link-2"));
             Ok (collectionResponse ["drive D"] None)]
            [] (Ok "default drive") [])
         "site" ["id"; "name"])
      false 0
    = Some (Returns (Ok ["drive A"; "drive B"; "drive C"; "drive D"]), pager',
            [EvGetPage; EvSetNext "link-1"; EvGetPage; EvSetNext "link-2"; EvGetPage]) ∧
    pending (sdpGs pager') = [].
Proof.
  refine (GetAllDrives_site_pages exampleHasLabel exampleIsTimeout
            [(["drive A"; "drive B"], "link-1"); (["drive C"], "link-2")]
            ["drive D"] None [] (Ok "default drive") "site" ["id"; "name"]
            0 false 0 _ _ eq_refl).
  - discriminate.
  - repeat constructor; discriminate.
Defined.

Lemma GetAllDrives_site_not_found_witness :
  ∃ pager',
    GetAllDrives exampleHasLabel exampleIsTimeout 2
      (NewSiteDrivePager
         (mkScriptedService
            [Ok (collectionResponse ["drive A"; "drive B"] (Some "link-1"));
             Fail (ErrExternal "mysite not found")]
            [] (Ok "default drive") [])
         "site" ["id"; "name"])
      true 3
    = Some (Returns (Ok []), pager', [EvGetPage; EvSetNext "link-1"; EvGetPage]).
Proof.
  refine (GetAllDrives_site_not_found exampleHasLabel exampleIsTimeout
            [(["drive A"; "drive B"], "link-1")]
            (ErrExternal "mysite not found") [] (Ok "default drive")
            "site" ["id"; "name"] 0 true 3 _ _ eq_refl).
  - done.
  - repeat constructor; discriminate.
Defined.

Lemma GetAllDrives_user_default_drive_witness :
  GetAllDrives exampleHasLabel exampleIsTimeout
    (H0 := userDrivePager_pager exampleTypeName) 1
    (NewUserDrivePager timingOutService "user" []) true 0
  = Some (Returns (Ok ["default drive"]),
          mkUserDrivePager "user"
            (mkScriptedService (pending timingOutService) [] (Ok "default drive") ["user"])
            (UserDrives "user") [],
          [EvGetPage]).
Proof.
  refine (GetAllDrives_user_default_drive exampleHasLabel exampleIsTimeout
            exampleTypeName timingOutService _ "user" [] "default drive" 0 true 0
            _ eq_refl).
  done.
Defined.

Lemma GetAllDrives_negative_retries_witness :
  GetAllDrives exampleHasLabel exampleIsTimeout 1
    (NewSiteDrivePager recoveringService "site" []) true (-1)
  = Some (Returns (Fail (ErrWrap
            (ErrNew "page does not comply with GetValue() interface")
            "extracting drives from response")),
          NewSiteDrivePager recoveringService "site" [], []).
Proof.
  refine (proj1 (GetAllDrives_negative_retries exampleHasLabel exampleIsTimeout
                   exampleTypeName 0 (-1)
                   (NewSiteDrivePager recoveringService "site" [])
                   (NewUserDrivePager recoveringService "user" []) _)).
  done.
Defined.

(** ** [getLocationString] *)

Section getLocationString_facts.

Lemma string_app_empty (s t : string) : s +:+ t = "" → s = "".
Proof. by destruct s. Qed.

(** Joining leaves something as soon as one of the strings joined is not
    empty. *)
Lemma concat_empty (sep : string) (l : list string) :
  String.concat sep l = "" → Forall (λ s, s = "") l.
Proof.
  induction l as [|x l IH]; simpl; [done|].
  destruct l as [|y l].
  - intros ->. by constructor.
  - intros Hx. pose proof (string_app_empty _ _ Hx) as ->. simpl in Hx.
    destruct sep; simpl in Hx; [|done].
    constructor; [done|]. by apply IH.
Qed.

(** X24: [getLocationString] is empty exactly when there is no location or
    every field it reads is empty or nil, so a location is set on the event
    exactly when some field has text. *)
Theorem getLocationString_empty_iff (location : option Location) :
  getLocationString location = "" ↔
  match location with
  | None => True
  | Some l => Forall (λ seg, seg = "") (locationSegments l)
  end.
Proof.
  destruct location as [l|]; [|done]. unfold getLocationString. split.
  - intros Hempty%concat_empty. rewrite Forall_forall in Hempty.
    apply Forall_forall. intros seg Hseg.
    destruct (decide (seg = "")) as [|Hne]; [done|].
    apply (Hempty seg), list_elem_of_filter. split; [|done].
    destruct seg; [done|simpl; lia].
  - intros Hall. rewrite filter_none; [done|].
    rewrite Forall_forall in Hall. intros seg Hseg Hlen.
    rewrite (Hall seg Hseg) in Hlen. simpl in Hlen. lia.
Qed.

(** X25: a location without address, or whose address fields are all
    empty, is rendered as its display name alone, with no separator. *)
Theorem getLocationString_name_only (location : Location) :
  match GetAddress location with
  | None => True
  | Some addr =>
      ptrVal (GetStreet addr) = "" ∧ ptrVal (GetCity addr) = "" ∧
      ptrVal (GetState addr) = "" ∧ ptrVal (GetCountryOrRegion addr) = "" ∧
      ptrVal (GetPostalCode addr) = ""
  end →
  getLocationString (Some location) = ptrVal (GetDisplayName location).
Proof.
  unfold getLocationString, locationSegments.
  assert (∀ dn : string,
            String.concat ", "
              (filter (λ seg, 0 < String.length seg) [dn; ""; ""; ""; ""; ""]) = dn ∧
            String.concat ", " (filter (λ seg, 0 < String.length seg) [dn]) = dn)
    as Hjoin.
  { intros dn. rewrite !filter_cons, filter_nil. simpl.
    destruct (decide (0 < 0)); [lia|].
    destruct (decide (0 < String.length dn)) as [|Hz]; [done|].
    by destruct dn; [|simpl in Hz; lia]. }
  destruct (GetAddress location) as [addr|].
  - intros (-> & -> & -> & -> & ->). apply Hjoin.
  - intros _. apply Hjoin.
Qed.

End getLocationString_facts.

Lemma getLocationString_name_only_witness :
  getLocationString
    (Some (mkLocation (Some "Room 4")
             (Some (mkPhysicalAddress None (Some "") None None None))))
  = "Room 4".
Proof.
  exact (getLocationString_name_only
           (mkLocation (Some "Room 4")
              (Some (mkPhysicalAddress None (Some "") None None None)))
           (conj eq_refl (conj eq_refl (conj eq_refl (conj eq_refl eq_refl))))).
Defined.

(** ** [getRecurrencePattern] *)

Section getRecurrencePattern_facts.
Variable ParseTime : string → res Time.
Variable GraphTimeZoneToTZ : gmap string string.
Variable LoadLocation : string → res string.
Variable inLocationUTC : Time → string → Time.
Variable GraphToICalDOW : gmap string string.
Variable sprintICalIndex : string → string.
Variable formatICal : Time → string.
Variable zeroPatternType : RecurrencePatternType.
Variable zeroRangeType : RecurrenceRangeType.

Local Abbreviation componentOk recurrence :=
  (λ component : string,
     component = componentKey component +:+ "=" +:+ componentValue component ∧
     ruleValue ParseTime GraphTimeZoneToTZ LoadLocation inLocationUTC
       GraphToICalDOW sprintICalIndex formatICal recurrence
       (componentKey component) (componentValue component)).

Lemma componentKey_app (key value : string) :
  componentKey key = key → componentKey (key +:+ "=" +:+ value) = key.
Proof.
  induction key as [|c key IH]; [done|]. simpl.
  destruct (Ascii.eqb c "=") eqn:Hc; [done|].
  intros [= Hkey]. by rewrite IH.
Qed.

Lemma componentValue_app (key value : string) :
  componentKey key = key → componentValue (key +:+ "=" +:+ value) = value.
Proof.
  induction key as [|c key IH]; [done|]. simpl.
  destruct (Ascii.eqb c "=") eqn:Hc; [done|].
  intros [= Hkey]. by apply IH.
Qed.

Lemma components_nil (recurrence : PatternedRecurrence) (keys : list string) :
  componentKey <$> [] `sublist_of` keys ∧ Forall (componentOk recurrence) [].
Proof. split; [apply sublist_nil_l|constructor]. Qed.

Lemma components_one (recurrence : PatternedRecurrence) (key value : string) :
  componentKey key = key →
  ruleValue ParseTime GraphTimeZoneToTZ LoadLocation inLocationUTC
    GraphToICalDOW sprintICalIndex formatICal recurrence key value →
  componentKey <$> [key +:+ "=" +:+ value] `sublist_of` [key] ∧
  Forall (componentOk recurrence) [key +:+ "=" +:+ value].
Proof.
  intros Hkey Hvalue.
  pose proof (componentKey_app key value Hkey) as Hk.
  pose proof (componentValue_app key value Hkey) as Hv.
  split; [simpl; by rewrite Hk|].
  apply Forall_singleton. by rewrite Hk, Hv.
Qed.

Lemma components_app (recurrence : PatternedRecurrence)
    (keys1 keys2 part1 part2 : list string) :
  componentKey <$> part1 `sublist_of` keys1 ∧ Forall (componentOk recurrence) part1 →
  componentKey <$> part2 `sublist_of` keys2 ∧ Forall (componentOk recurrence) part2 →
  componentKey <$> (part1 ++ part2) `sublist_of` keys1 ++ keys2 ∧
  Forall (componentOk recurrence) (part1 ++ part2).
Proof.
  intros [Hk1 Hok1] [Hk2 Hok2].
  split; [rewrite fmap_app; by apply sublist_app|by apply Forall_app].
Qed.

Lemma dowLoop_days (dow acc dowComponents : list string) :
  dowLoop GraphToICalDOW dow acc = Ok dowComponents →
  ∃ days, dowComponents = acc ++ days ∧
    Forall2 (λ day icalday, GraphToICalDOW !! day = Some icalday) dow days.
Proof.
  revert acc. induction dow as [|day dow IH]; intros acc; simpl.
  - intros [= <-]. exists []. by rewrite app_nil_r.
  - destruct (GraphToICalDOW !! day) as [icalday|] eqn:Hday; [|done].
    intros (days & -> & Hdays)%IH.
    exists (icalday :: days). split; [by rewrite <-app_assoc|by constructor].
Qed.

Lemma freqComponent_part (recurrence : PatternedRecurrence)
    (pat : RecurrencePattern) :
  GetPattern recurrence = Some pat →
  componentKey <$> freqComponent (GetTypeEscaped pat) `sublist_of` ["FREQ"] ∧
  Forall (componentOk recurrence) (freqComponent (GetTypeEscaped pat)).
Proof.
  intros Hpat.
  assert (∀ value, value ∈ ["DAILY"; "WEEKLY"; "MONTHLY"; "YEARLY"] →
            componentKey <$> ["FREQ" +:+ "=" +:+ value] `sublist_of` ["FREQ"] ∧
            Forall (componentOk recurrence) ["FREQ" +:+ "=" +:+ value]) as Hone.
  { intros value Hvalue. apply components_one; [done|].
    exists pat. split; [done|]. left. by split. }
  destruct (GetTypeEscaped pat) as [[]|]; simpl; [..|apply components_nil].
  - apply (Hone "DAILY"), list_elem_of_here.
  - apply (Hone "WEEKLY"), list_elem_of_further, list_elem_of_here.
  - apply (Hone "MONTHLY"). do 2 apply list_elem_of_further. apply list_elem_of_here.
  - apply (Hone "MONTHLY"). do 2 apply list_elem_of_further. apply list_elem_of_here.
  - apply (Hone "YEARLY"). do 3 apply list_elem_of_further. apply list_elem_of_here.
  - apply (Hone "YEARLY"). do 3 apply list_elem_of_further. apply list_elem_of_here.
Qed.

Lemma intervalComponent_part (recurrence : PatternedRecurrence)
    (pat : RecurrencePattern) :
  GetPattern recurrence = Some pat →
  componentKey <$> intervalComponent (GetInterval pat) `sublist_of` ["INTERVAL"] ∧
  Forall (componentOk recurrence) (intervalComponent (GetInterval pat)).
Proof.
  intros Hpat. unfold intervalComponent.
  destruct (GetInterval pat) as [n|] eqn:Hn; [|apply components_nil].
  apply (components_one recurrence "INTERVAL" (pretty n)); [done|].
  exists pat. split; [done|]. right; left. split; [done|]. by exists n.
Qed.

Lemma monthComponent_part (recurrence : PatternedRecurrence)
    (pat : RecurrencePattern) :
  GetPattern recurrence = Some pat →
  componentKey <$> monthComponent (default 0%Z (GetMonth pat)) `sublist_of` ["BYMONTH"] ∧
  Forall (componentOk recurrence) (monthComponent (default 0%Z (GetMonth pat))).
Proof.
  intros Hpat. unfold monthComponent.
  destruct (bool_decide_reflect (0 < default 0 (GetMonth pat))%Z) as [Hpos|_];
    [|apply components_nil].
  destruct (GetMonth pat) as [n|] eqn:Hn; simpl in *; [|lia].
  apply (components_one recurrence "BYMONTH" (pretty n)); [done|].
  exists pat. split; [done|]. right; right; left. split; [done|]. by exists n.
Qed.

Lemma monthDayComponent_part (recurrence : PatternedRecurrence)
    (pat : RecurrencePattern) :
  GetPattern recurrence = Some pat →
  componentKey <$> monthDayComponent (default 0%Z (GetDayOfMonth pat))
    `sublist_of` ["BYMONTHDAY"] ∧
  Forall (componentOk recurrence) (monthDayComponent (default 0%Z (GetDayOfMonth pat))).
Proof.
  intros Hpat. unfold monthDayComponent.
  destruct (bool_decide_reflect (0 < default 0 (GetDayOfMonth pat))%Z) as [Hpos|_];
    [|apply components_nil].
  destruct (GetDayOfMonth pat) as [n|] eqn:Hn; simpl in *; [|lia].
  apply (components_one recurrence "BYMONTHDAY" (pretty n)); [done|].
  exists pat. split; [done|]. do 3 right. left. split; [done|]. by exists n.
Qed.

Lemma byDayComponent_part (recurrence : PatternedRecurrence)
    (pat : RecurrencePattern) (byDay : list string) :
  GetPattern recurrence = Some pat →
  byDayComponent GraphToICalDOW sprintICalIndex zeroPatternType pat = Ok byDay →
  componentKey <$> byDay `sublist_of` ["BYDAY"] ∧
  Forall (componentOk recurrence) byDay.
Proof.
  intros Hpat. unfold byDayComponent.
  destruct (GetDaysOfWeek pat) as [dow|] eqn:Hdow;
    [|intros [= <-]; apply components_nil].
  destruct (dowLoop GraphToICalDOW dow []) as [dowComponents|] eqn:Hloop; [|done].
  apply dowLoop_days in Hloop as (days & -> & Hdays). simpl.
  intros [= <-].
  match goal with
  | |- context [("BYDAY=" +:+ ?prefix +:+ ?joined)%string] =>
      apply (components_one recurrence "BYDAY" (prefix +:+ joined)); [done|];
      exists pat; split; [done|]; do 4 right; left; split; [done|];
      exists dow, days, prefix; repeat split; [done|done|]
  end.
  destruct (GetIndex pat) as [index|]; [|by left].
  destruct (_ || _); [right; by exists index|by left].
Qed.

Lemma rangeComponent_part (recurrence : PatternedRecurrence)
    (pat : RecurrencePattern) (range : list string) :
  GetPattern recurrence = Some pat →
  rangeComponent ParseTime GraphTimeZoneToTZ LoadLocation inLocationUTC
    formatICal zeroRangeType (GetRangeEscaped recurrence) = Ok range →
  ∃ last, last ∈ ["UNTIL"; "COUNT"] ∧
    componentKey <$> range `sublist_of` [last] ∧
    Forall (componentOk recurrence) range.
Proof.
  intros Hpat. unfold rangeComponent.
  assert ("UNTIL" ∈ ["UNTIL"; "COUNT"]) as Huntil by apply list_elem_of_here.
  destruct (GetRangeEscaped recurrence) as [rrange|] eqn:Hrange;
    [|intros [= <-]; exists "UNTIL"; split; [done|apply components_nil]].
  destruct (default zeroRangeType (GetRangeType rrange)).
  - destruct (GetEndDate rrange) as [endDate|] eqn:Hend;
      [|intros [= <-]; exists "UNTIL"; split; [done|apply components_nil]].
    destruct (getUTCTime _ _ _ _ _ _) as [endTime|] eqn:Htime; [|done].
    intros [= <-]. exists "UNTIL". split; [done|].
    apply (components_one recurrence "UNTIL" (formatICal endTime)); [done|].
    exists pat. split; [done|]. do 5 right. left. split; [done|].
    by exists rrange, endDate, endTime.
  - intros [= <-]. exists "UNTIL". split; [done|apply components_nil].
  - destruct (bool_decide_reflect (0 < default 0 (GetNumberOfOccurrences rrange))%Z)
      as [Hpos|_];
      [|intros [= <-]; exists "UNTIL"; split; [done|apply components_nil]].
    destruct (GetNumberOfOccurrences rrange) as [n|] eqn:Hn; simpl in *; [|lia].
    intros [= <-]. exists "COUNT".
    split; [apply list_elem_of_further, list_elem_of_here|].
    apply (components_one recurrence "COUNT" (pretty n)); [done|].
    exists pat. split; [done|]. do 6 right. split; [done|].
    by exists rrange, n.
Qed.

(** X26: the rule [getRecurrencePattern] returns is the components it
    built, joined by ";".  The keys of the components, each the text
    before the first "=" of its component, are in this order and each at
    most once: FREQ, INTERVAL, BYMONTH, BYMONTHDAY, BYDAY, and then one of
    UNTIL and COUNT, never both.  Every component is its key, "=", and the
    value the recurrence gives for that key. *)
Theorem getRecurrencePattern_components (recurrence : PatternedRecurrence)
    (rule : string) :
  getRecurrencePattern ParseTime GraphTimeZoneToTZ LoadLocation inLocationUTC
    GraphToICalDOW sprintICalIndex formatICal zeroPatternType zeroRangeType
    recurrence = Returns (Ok rule) →
  ∃ components,
    recurComponents ParseTime GraphTimeZoneToTZ LoadLocation inLocationUTC
      GraphToICalDOW sprintICalIndex formatICal zeroPatternType zeroRangeType
      recurrence = Returns (Ok components) ∧
    rule = String.concat ";" components ∧
    (∃ last, last ∈ ["UNTIL"; "COUNT"] ∧
       componentKey <$> components `sublist_of` ruleKeys last) ∧
    ∀ component, component ∈ components →
      component = componentKey component +:+ "=" +:+ componentValue component ∧
      ruleValue ParseTime GraphTimeZoneToTZ LoadLocation inLocationUTC
        GraphToICalDOW sprintICalIndex formatICal recurrence
        (componentKey component) (componentValue component).
Proof.
  unfold getRecurrencePattern.
  destruct (recurComponents _ _ _ _ _ _ _ _ _ recurrence)
    as [[components|]|] eqn:Hcomponents; [|done..].
  intros [= <-]. exists components. split; [done|]. split; [done|].
  revert Hcomponents. unfold recurComponents.
  destruct (GetPattern recurrence) as [pat|] eqn:Hpat; [|done].
  destruct (byDayComponent _ _ _ pat) as [byDay|] eqn:Hby; [|done].
  destruct (rangeComponent _ _ _ _ _ _ _) as [range|] eqn:Hrange; [|done].
  intros [= <-].
  destruct (rangeComponent_part recurrence pat range Hpat Hrange)
    as (last & Hlast & Hrange').
  pose proof (components_app recurrence _ _ _ _
    (components_app recurrence _ _ _ _
      (components_app recurrence _ _ _ _
        (components_app recurrence _ _ _ _
          (components_app recurrence _ _ _ _
            (components_nil recurrence [])
            (freqComponent_part recurrence pat Hpat))
          (intervalComponent_part recurrence pat Hpat))
        (monthComponent_part recurrence pat Hpat))
      (monthDayComponent_part recurrence pat Hpat))
    (components_app recurrence _ _ _ _
      (byDayComponent_part recurrence pat byDay Hpat Hby) Hrange'))
    as [Hkeys Hok].
  rewrite app_assoc in Hkeys, Hok.
  split; [by exists last|].
  by apply Forall_forall.
Qed.

Lemma dowLoop_unknown (dow : list string) (day : string) :
  day ∈ dow → GraphToICalDOW !! day = None →
  ∀ acc, dowLoop GraphToICalDOW dow acc = Fail (ErrNew "unknown day of week").
Proof.
  intros Hin Hday. induction dow as [|d dow IH]; intros acc;
    [by apply elem_of_nil in Hin|].
  simpl. destruct (GraphToICalDOW !! d) as [icalday|] eqn:Hd; [|done].
  apply IH. apply elem_of_cons in Hin as [->|Hin]; [congruence|done].
Qed.

(** X27: a day of the week that is not in the table fails the whole rule
    with "unknown day of week", whatever the other fields and the range
    hold. *)
Theorem getRecurrencePattern_unknown_day (recurrence : PatternedRecurrence)
    (pat : RecurrencePattern) (dow : list string) (day : string) :
  GetPattern recurrence = Some pat →
  GetDaysOfWeek pat = Some dow →
  day ∈ dow → GraphToICalDOW !! day = None →
  getRecurrencePattern ParseTime GraphTimeZoneToTZ LoadLocation inLocationUTC
    GraphToICalDOW sprintICalIndex formatICal zeroPatternType zeroRangeType
    recurrence = Returns (Fail (ErrNew "unknown day of week")).
Proof.
  intros Hpat Hdow Hin Hday.
  unfold getRecurrencePattern, recurComponents, byDayComponent.
  rewrite Hpat, Hdow. by rewrite (dowLoop_unknown dow day Hin Hday).
Qed.

End getRecurrencePattern_facts.

Lemma getRecurrencePattern_components_witness :
  exampleGetRecurrencePattern weeklyTenTimes
    = Returns (Ok "FREQ=WEEKLY;INTERVAL=2;BYDAY=MO,FR;COUNT=10") ∧
  ∃ components,
    exampleRecurComponents weeklyTenTimes = Returns (Ok components) ∧
    "FREQ=WEEKLY;INTERVAL=2;BYDAY=MO,FR;COUNT=10" = String.concat ";" components ∧
    (∃ last, last ∈ ["UNTIL"; "COUNT"] ∧
       componentKey <$> components `sublist_of` ruleKeys last) ∧
    ∀ component, component ∈ components →
      component = componentKey component +:+ "=" +:+ componentValue component ∧
      ruleValue (λ _, Ok 0%Z) {[ "UTC" := "Etc/UTC" ]} (λ tz, Ok tz) (λ t _, t)
        exampleDOW (λ _, "1") (λ _, "20300101T000000Z") weeklyTenTimes
        (componentKey component) (componentValue component).
Proof.
  assert (exampleGetRecurrencePattern weeklyTenTimes
            = Returns (Ok "FREQ=WEEKLY;INTERVAL=2;BYDAY=MO,FR;COUNT=10")) as Hrun
    by (by vm_compute).
  split; [exact Hrun|].
  exact (getRecurrencePattern_components _ _ _ _ _ _ _ _ _ weeklyTenTimes _ Hrun).
Defined.

Lemma getRecurrencePattern_unknown_day_witness :
  exampleGetRecurrencePattern weeklyOnSunday
    = Returns (Fail (ErrNew "unknown day of week")).
Proof.
  refine (getRecurrencePattern_unknown_day _ _ _ _ exampleDOW _ _ _ _
            weeklyOnSunday _ ["monday"; "sunday"] "sunday" eq_refl eq_refl _ eq_refl).
  apply list_elem_of_further, list_elem_of_here.
Defined.

(** ** [GetContainerByName] and [restoreListItem] *)

Section events_facts.
Context {G Cal : Type} `{calendarService G Cal}.
Variable CheckIDAndName : Cal → option error.

(** X28: [GetContainerByName] answers a calendar exactly when the service,
    asked with the filter [name eq '<name>'], answers that one calendar and
    no other, and the calendar passes the ID-and-name check. *)
Theorem GetContainerByName_exactly_one (gs : G) (userID containerName : string)
    (cal : Cal) :
  (GetContainerByName CheckIDAndName gs userID containerName).2 = Ok cal ↔
  (calendarsGet gs userID ("name eq '" +:+ containerName +:+ "'")).2 = Ok [cal] ∧
  CheckIDAndName cal = None.
Proof.
  unfold GetContainerByName.
  destruct (calendarsGet gs userID _) as [gs' [values|err]]; simpl.
  - destruct values as [|c [|c' values]]; simpl.
    + split; [done|by intros [? _]].
    + destruct (CheckIDAndName c) as [err|] eqn:Hc; simpl.
      * split; [done|]. intros [[= ->] ?]. congruence.
      * split; [by intros [= ->]|by intros [[= ->] _]].
    + split; [done|by intros [? _]].
  - split; [done|by intros [? _]].
Qed.

End events_facts.

Section restoreListItem_facts.
Context {G ListT Item Restored Info : Type} `{listService G ListT Item Restored}.
Variable CreateListFromBytes : list Byte.byte → res ListT.
Variable ListDisplayName : ListT → option string.
Variable ListItems : ListT → list Item.
Variable CloneListItem : Item → Item.
Variable RestoredId : Restored → option string.
Variable listToSPInfo : Restored → Z → Info.

(** The item loop posts a prefix of the items, in order, all of them when
    it ends without error. *)
Lemma postListItems_calls (siteID listID : string) (contents : list Item)
    (gs : G) (log : list (ListCall Item)) :
  ∃ posted,
    (postListItems siteID listID contents gs log).2
      = log ++ (CallPostListItem siteID listID <$> posted) ∧
    posted `prefix_of` contents ∧
    ((postListItems siteID listID contents gs log).1.1 = None → posted = contents).
Proof.
  revert gs log. induction contents as [|item contents IH]; intros gs log; simpl.
  - exists []. by rewrite app_nil_r.
  - destruct (listItemsPost gs siteID listID item) as [gs' [err|]]; simpl.
    + exists [item]. split; [done|]. split; [|done]. by apply prefix_cons, prefix_nil.
    + destruct (IH gs' (log ++ [CallPostListItem siteID listID item]))
        as (posted & Hlog & Hpre & Hall).
      exists (item :: posted). split; [by rewrite Hlog, <-app_assoc|].
      split; [by apply prefix_cons|]. intros Hn. by rewrite Hall.
Qed.


End restoreListItem_facts.

